(** * CRM reconciliation and audit engine

    A shallow embedding of the service layer of the CRM
    ([crm/models.py], [crm/repositories.py], [crm/services.py],
    [crm/integration/skyline_client.py], [crm/database.py]) and the
    properties of its invoice synchronisation, sales-date workflow and
    dashboard.

    Conventions of the embedding:
    - a table is the list of its rows, in the order a SELECT without
      ORDER BY returns them; a row is never deleted, so its position is
      its identity;
    - a [Session] separates the persistent rows from the objects handed to
      [session.add] and not flushed yet: [database.py] builds the sessions
      with [autoflush=False], so a SELECT reads the persistent rows only;
    - Python [float] is the binary64 [float] of [PrimFloat]; a [date] is a
      day ordinal and a [datetime] a day ordinal with the microsecond of
      that day;
    - [Invoice.amount] is a [Numeric(12, 2)] column: a session holds the
      amount of an invoice it has written as the float it was given, and
      a commit stores it as the column gives it back, rounded to two
      decimals; an amount is a number (a NaN is outside the model);
    - the clock ([datetime.utcnow]), [uuid.UUID], the Infor Skyline client
      and the rounding of the database in use are the environment of the
      service: Variables of the Section that holds it. *)

From Stdlib Require Import ZArith String Ascii DecimalString.
From Stdlib Require Import Floats.
From stdpp Require Import base tactics option list numbers strings.

Local Open Scope string_scope.
Local Open Scope list_scope.

(** ** Values *)

Definition UUID : Type := N.
Definition date : Type := Z.
Definition datetime : Type := (Z * Z)%type.

(** [datetime.date()] and [dt - timedelta(days=n)]. *)
Definition datetime_date (dt : datetime) : date := fst dt.
Definition datetime_sub_days (dt : datetime) (n : Z) : datetime :=
  ((fst dt - n)%Z, snd dt).

(** Truth value of an [Optional[str]]: [None] and the empty string are
    false. *)
Definition truthy (s : option string) : bool :=
  match s with
  | None => false
  | Some EmptyString => false
  | Some (String _ _) => true
  end.

(** [a or b] on an [Optional[str]] and a string. *)
Definition or_else (a : option string) (b : string) : string :=
  match a with
  | Some (String c s) => String c s
  | _ => b
  end.

(** [str.lower()], on the ASCII range: the letters A to Z go to a to z and
    every other byte stays. (A text with a character outside ASCII does not
    lower to [draft], [issued], [paid] or [overdue]: the only such
    character that lowers to plain ASCII letters is the Kelvin sign, to a
    [k], a letter none of the four has. So this is Python's [lower] as far
    as the status lookup can tell.) *)
Definition lower_ascii (c : ascii) : ascii :=
  let n := nat_of_ascii c in
  if (Nat.leb 65 n && Nat.leb n 90)%bool then ascii_of_nat (n + 32) else c.

Fixpoint lower (s : string) : string :=
  match s with
  | EmptyString => EmptyString
  | String c s' => String (lower_ascii c) (lower s')
  end.

(** [str(n)] for a non-negative [int]. *)
Definition str_of_nat (n : nat) : string :=
  NilZero.string_of_uint (Nat.to_uint n).

(** [sep.join(l)]. *)
Definition join (sep : string) (l : list string) : string :=
  String.concat sep l.

(** ** models.py *)

Inductive OpportunityStage : Set :=
  | prospect | proposal | negotiation | won | lost.

Inductive InvoiceStatus : Set :=
  | draft | issued | paid | overdue.

#[global] Instance OpportunityStage_eq_dec : EqDecision OpportunityStage.
Proof. solve_decision. Defined.

#[global] Instance InvoiceStatus_eq_dec : EqDecision InvoiceStatus.
Proof. solve_decision. Defined.

(** The value of a member of the [str] enum. *)
Definition InvoiceStatus_value (st : InvoiceStatus) : string :=
  match st with
  | draft => "draft"
  | issued => "issued"
  | paid => "paid"
  | overdue => "overdue"
  end.

(** [InvoiceStatus(value)]: the member with that value, [None] for the
    [ValueError] of a value that is no member's. *)
Definition InvoiceStatus_of_value (v : string) : option InvoiceStatus :=
  if String.eqb v "draft" then Some draft
  else if String.eqb v "issued" then Some issued
  else if String.eqb v "paid" then Some paid
  else if String.eqb v "overdue" then Some overdue
  else None.

(** The columns that the persistence engine fills in when it inserts a row
    (the [id] of an invoice, of a sales-date update and of a log entry,
    [SalesDateUpdate.updated_at], [SyncLog.executed_at]) are no fields of
    the records: the service never reads or writes them. The [opportunity]
    relationship of a row is the [id] of the opportunity it points to. *)

Module Opportunity.
Record t : Type := mk {
  id : UUID;
  client_id : UUID;
  name : string;
  stage : OpportunityStage;
  probability : float;
  expected_close_date : option date;
  actual_close_date : option date;
  amount : float;
  owner : option string;
  infor_sales_order_id : option string;
  notes : option string;
  created_at : datetime;
  updated_at : datetime
}.

Definition set_expected_close_date (d : option date) (o : t) : t :=
  mk (id o) (client_id o) (name o) (stage o) (probability o) d
     (actual_close_date o) (amount o) (owner o) (infor_sales_order_id o)
     (notes o) (created_at o) (updated_at o).

Definition set_updated_at (now : datetime) (o : t) : t :=
  mk (id o) (client_id o) (name o) (stage o) (probability o)
     (expected_close_date o) (actual_close_date o) (amount o) (owner o)
     (infor_sales_order_id o) (notes o) (created_at o) now.
End Opportunity.

Module Invoice.
Record t : Type := mk {
  opportunity : UUID;
  external_id : option string;
  amount : float;
  issue_date : date;
  due_date : option date;
  status : InvoiceStatus;
  currency : string;
  last_sync_at : option datetime
}.
End Invoice.

Module SyncLog.
Record t : Type := mk {
  sync_type : string;
  success : bool;
  details : option string
}.
End SyncLog.

Module SalesDateUpdate.
Record t : Type := mk {
  opportunity : UUID;
  previous_date : option date;
  new_date : date;
  updated_by : string;
  synced_with_infor : bool;
  sync_reference : option string
}.
End SalesDateUpdate.

(** ** integration/skyline_client.py *)

Module InvoicePayload.
Record t : Type := mk {
  external_id : string;
  opportunity_external_id : string;
  amount : float;
  issue_date : date;
  due_date : option date;
  status : string;
  currency : string
}.
End InvoicePayload.

Module SaleDateUpdateResponse.
Record t : Type := mk {
  success : bool;
  reference : option string;
  message : option string
}.
End SaleDateUpdateResponse.

(** ** Exceptions and results *)

Inductive exn : Type :=
  | ValueError (msg : string)
  | RuntimeError (msg : string)
  | IntegrityError (msg : string)
  | TransportError (msg : string).

(** [str(exc)]. *)
Definition str_exn (e : exn) : string :=
  match e with
  | ValueError m | RuntimeError m | IntegrityError m | TransportError m => m
  end.

Inductive Result (A : Type) : Type :=
  | Ok (a : A)
  | Raised (e : exn).
Arguments Ok {A} a.
Arguments Raised {A} e.

(** An [Iterable[InvoicePayload]] as the [for] loop of the service sees it:
    the payloads it yields and, when the iteration does not end normally,
    the exception raised after them. [fetch_invoices] of the client builds
    the whole list before it returns, so there a failure comes with no
    payload at all. *)
Record Feed : Type := {
  items : list InvoicePayload.t;
  failure : option exn
}.

(** The two operations of [InforSkylineClient] the service calls. *)
Record InforSkylineClient : Type := {
  fetch_invoices : date -> Feed;
  update_sale_date : string -> date -> Result SaleDateUpdateResponse.t
}.

(** The client in mock mode ([settings.infor_mock_mode], the default):
    [_mock_invoices] and [_mock_sale_date_update]. [isoformat] is
    [date.isoformat]. *)
Definition _mock_invoices (since : date) : list InvoicePayload.t :=
  [ InvoicePayload.mk "INV-1001" "OPP-100" 12500%float since (Some since)
      "issued" "USD";
    InvoicePayload.mk "INV-1002" "OPP-101" 9800.5%float since (Some since)
      "paid" "USD" ].

Definition _mock_sale_date_update (isoformat : date -> string)
    (sales_order_id : string) (new_date : date) : SaleDateUpdateResponse.t :=
  SaleDateUpdateResponse.mk true
    (Some ("MOCK-" +:+ sales_order_id +:+ "-" +:+ isoformat new_date))
    (Some "Mock update successful").

Definition mock_client (isoformat : date -> string) : InforSkylineClient :=
  {| fetch_invoices since := {| items := _mock_invoices since; failure := None |};
     update_sale_date sales_order_id new_date :=
       Ok (_mock_sale_date_update isoformat sales_order_id new_date) |}.

(** ** database.py: tables, sessions, transactions *)

Record Database : Type := {
  opportunities : list Opportunity.t;
  invoices : list Invoice.t;
  sales_date_updates : list SalesDateUpdate.t;
  sync_logs : list SyncLog.t
}.

Definition set_opportunities (l : list Opportunity.t) (d : Database) : Database :=
  {| opportunities := l; invoices := invoices d;
     sales_date_updates := sales_date_updates d; sync_logs := sync_logs d |}.

Definition set_invoices (l : list Invoice.t) (d : Database) : Database :=
  {| opportunities := opportunities d; invoices := l;
     sales_date_updates := sales_date_updates d; sync_logs := sync_logs d |}.

Definition set_sales_date_updates (l : list SalesDateUpdate.t) (d : Database)
    : Database :=
  {| opportunities := opportunities d; invoices := invoices d;
     sales_date_updates := l; sync_logs := sync_logs d |}.

Definition set_sync_logs (l : list SyncLog.t) (d : Database) : Database :=
  {| opportunities := opportunities d; invoices := invoices d;
     sales_date_updates := sales_date_updates d; sync_logs := l |}.

Definition no_rows : Database :=
  {| opportunities := []; invoices := []; sales_date_updates := [];
     sync_logs := [] |}.

(** A session: [rows] are the persistent objects, with the attribute
    values the session holds for them (an assignment to a loaded object is
    seen by every later read of that object); [added] are the objects given
    to [session.add] since the last flush; [assigned_invoices] are the
    positions of the persistent invoices whose columns the session holds
    as it has written them, not as it has read them. *)
Record Session : Type := {
  rows : Database;
  added : Database;
  assigned_invoices : list nat
}.

(** [SessionLocal()]: a new session over the committed tables. *)
Definition SessionLocal (db : Database) : Session :=
  {| rows := db; added := no_rows; assigned_invoices := [] |}.

(** [Invoice.external_id] is declared [unique=True]: two rows may not
    share an external id that is not NULL. *)
Definition unique_external_ids (l : list Invoice.t) : Prop :=
  NoDup (omap Invoice.external_id l).

(** [session.flush()]: the added objects are inserted after the rows that
    exist, unless the insert breaks the unique constraint. The session
    keeps the objects it has inserted with the values it gave them. *)
Definition flush (s : Session) : Result Session :=
  let invs := invoices (rows s) ++ invoices (added s) in
  if decide (unique_external_ids invs) then
    Ok {| rows :=
            {| opportunities := opportunities (rows s) ++ opportunities (added s);
               invoices := invs;
               sales_date_updates :=
                 sales_date_updates (rows s) ++ sales_date_updates (added s);
               sync_logs := sync_logs (rows s) ++ sync_logs (added s) |};
          added := no_rows;
          assigned_invoices :=
            assigned_invoices s ++
            seq (length (invoices (rows s))) (length (invoices (added s))) |}
  else Raised (IntegrityError "UNIQUE constraint failed: invoices.external_id").

(** [Invoice.amount] is a [Numeric(12, 2)] column: a float written to it is
    read back rounded to two decimals. [numeric x] is the float of what the
    database in use gives back for the float [x] written. *)
Definition column_amount (numeric : float -> float) (inv : Invoice.t)
    : Invoice.t :=
  Invoice.mk (Invoice.opportunity inv) (Invoice.external_id inv)
    (numeric (Invoice.amount inv)) (Invoice.issue_date inv)
    (Invoice.due_date inv) (Invoice.status inv) (Invoice.currency inv)
    (Invoice.last_sync_at inv).

(** The invoices as a later session reads them: those the session has
    written, through the column; the others, as they were read. *)
Definition read_back (numeric : float -> float) (assigned : list nat)
    (invs : list Invoice.t) : list Invoice.t :=
  imap (fun i inv =>
          if decide (i ∈ assigned) then column_amount numeric inv else inv)
    invs.
#[global] Arguments read_back : simpl never.

(** [session.commit()]: flush, and the rows become the committed tables,
    as a later session reads them. *)
Definition commit (numeric : float -> float) (s : Session) : Result Database :=
  match flush s with
  | Ok s' =>
      Ok (set_invoices
            (read_back numeric (assigned_invoices s') (invoices (rows s')))
            (rows s'))
  | Raised e => Raised e
  end.

(** ** The state the service runs in *)

Inductive SkylineCall : Type :=
  | CallFetchInvoices (since : date)
  | CallUpdateSaleDate (sales_order_id : string) (new_date : date).

(** The session of the service, the number of times the clock has been
    read, and the calls made to the Infor Skyline client, oldest first. *)
Record World : Type := {
  session : Session;
  clock_reads : nat;
  skyline_calls : list SkylineCall
}.

Definition on_rows (f : Database -> Database) (w : World) : World :=
  {| session := {| rows := f (rows (session w)); added := added (session w);
                   assigned_invoices := assigned_invoices (session w) |};
     clock_reads := clock_reads w; skyline_calls := skyline_calls w |}.

Definition on_added (f : Database -> Database) (w : World) : World :=
  {| session := {| rows := rows (session w); added := f (added (session w));
                   assigned_invoices := assigned_invoices (session w) |};
     clock_reads := clock_reads w; skyline_calls := skyline_calls w |}.

(** An assignment to columns of the persistent invoice at position [i]. *)
Definition assign_invoice (i : nat) (inv : Invoice.t) (w : World) : World :=
  {| session :=
       {| rows := set_invoices (<[i := inv]> (invoices (rows (session w))))
                    (rows (session w));
          added := added (session w);
          assigned_invoices := assigned_invoices (session w) ++ [i] |};
     clock_reads := clock_reads w; skyline_calls := skyline_calls w |}.

(** Code that reads and writes the world and may raise: an exception keeps
    the state reached when it was raised. *)
Definition M (A : Type) : Type := World -> Result A * World.

Definition ret {A} (a : A) : M A := fun w => (Ok a, w).
Definition raise {A} (e : exn) : M A := fun w => (Raised e, w).
Definition bind {A B} (m : M A) (k : A -> M B) : M B :=
  fun w =>
    match m w with
    | (Ok a, w') => k a w'
    | (Raised e, w') => (Raised e, w')
    end.

Notation "x <- m ;; k" := (bind m (fun x => k))
  (at level 100, m at next level, right associativity).
Notation "m ;;; k" := (bind m (fun _ => k))
  (at level 100, right associativity).

(** A [for] loop that carries its local variables in [acc]. *)
Fixpoint for_each {A S} (body : S -> A -> M S) (l : list A) (acc : S) : M S :=
  match l with
  | [] => ret acc
  | x :: l' => acc' <- body acc x ;; for_each body l' acc'
  end.

(** The result of [synchronise_invoices] (a dict with these two keys) and
    the [SalesDashboard] schema. *)
Record SyncResult : Type := {
  processed : nat;
  warnings : list string
}.

Module SalesDashboard.
Record t : Type := mk {
  total_open_pipeline : float;
  total_invoiced : float;
  total_paid : float;
  overdue_invoices : nat
}.
End SalesDashboard.

(** The status of a payload, lines 125 to 131 of [services.py]: the member
    with that value, else the member with the lowered value, else
    [issued]. *)
Definition resolve_status (text : string) : InvoiceStatus :=
  match InvoiceStatus_of_value text with
  | Some st => st
  | None =>
      match InvoiceStatus_of_value (lower text) with
      | Some st => st
      | None => issued
      end
  end.

Section Service.

(** [utcnow k] is what the clock shows when it is read for the k-th
    time; [uuid_of_string] is [uuid.UUID(s)], [None] for its
    [ValueError]; [string_of_uuid] is [str(u)]. *)
Variable utcnow : nat -> datetime.
Variable uuid_of_string : string -> option UUID.
Variable string_of_uuid : UUID -> string.
Variable skyline_client : InforSkylineClient.

(** [numeric_12_2 x] is what the [Numeric(12, 2)] column of the database
    in use gives back, as a float, for the float [x] written to it. *)
Variable numeric_12_2 : float -> float.

Definition datetime_utcnow : M datetime :=
  fun w =>
    (Ok (utcnow (clock_reads w)),
     {| session := session w; clock_reads := S (clock_reads w);
        skyline_calls := skyline_calls w |}).

Definition record_call (c : SkylineCall) (w : World) : World :=
  {| session := session w; clock_reads := clock_reads w;
     skyline_calls := skyline_calls w ++ [c] |}.

Definition skyline_fetch_invoices (since : date) : M Feed :=
  fun w => (Ok (fetch_invoices skyline_client since),
            record_call (CallFetchInvoices since) w).

Definition skyline_update_sale_date (sales_order_id : string)
    (new_date : date) : M SaleDateUpdateResponse.t :=
  fun w => (update_sale_date skyline_client sales_order_id new_date,
            record_call (CallUpdateSaleDate sales_order_id new_date) w).

(** *** repositories.py *)

(** [session.get(Opportunity, id)]: the persistent opportunity with that
    primary key and its position. *)
Definition OpportunityRepository_get (opportunity_id : UUID)
    : M (option (nat * Opportunity.t)) :=
  fun w =>
    (Ok (list_find (fun o => Opportunity.id o = opportunity_id)
           (opportunities (rows (session w)))), w).

Definition OpportunityRepository_list_open : M (list Opportunity.t) :=
  fun w =>
    (Ok (filter (fun o => Opportunity.stage o <> won)
           (opportunities (rows (session w)))), w).

(** [session.scalar] gives the first row of the SELECT, or [None]. *)
Definition OpportunityRepository_get_by_infor_id (external_id : string)
    : M (option Opportunity.t) :=
  fun w =>
    (Ok (snd <$>
         list_find
           (fun o => Opportunity.infor_sales_order_id o = Some external_id)
           (opportunities (rows (session w)))), w).

Definition select_invoice_by_external_id (external_id : string)
    : M (option (nat * Invoice.t)) :=
  fun w =>
    (Ok (list_find (fun i => Invoice.external_id i = Some external_id)
           (invoices (rows (session w)))), w).

Definition InvoiceRepository_upsert_from_payload
    (opportunity : Opportunity.t) (external_id : string) (amount : float)
    (issue_date : date) (due_date : option date) (status : InvoiceStatus)
    (currency : string) : M Invoice.t :=
  found <- select_invoice_by_external_id external_id ;;
  match found with
  | None =>
      now <- datetime_utcnow ;;
      let invoice :=
        Invoice.mk (Opportunity.id opportunity) (Some external_id) amount
          issue_date due_date status currency (Some now) in
      (fun w =>
         (Ok invoice,
          on_added (fun d => set_invoices (invoices d ++ [invoice]) d) w))
  | Some (i, invoice) =>
      now <- datetime_utcnow ;;
      let invoice' :=
        Invoice.mk (Invoice.opportunity invoice) (Invoice.external_id invoice)
          amount issue_date due_date status currency (Some now) in
      (fun w => (Ok invoice', assign_invoice i invoice' w))
  end.

Definition SalesDateUpdateRepository_record (opportunity : Opportunity.t)
    (previous_date : option date) (new_date : date) (updated_by : string)
    (synced_with_infor : bool) (sync_reference : option string)
    : M SalesDateUpdate.t :=
  let entry :=
    SalesDateUpdate.mk (Opportunity.id opportunity) previous_date new_date
      updated_by synced_with_infor sync_reference in
  fun w =>
    (Ok entry,
     on_added
       (fun d => set_sales_date_updates (sales_date_updates d ++ [entry]) d) w).

Definition SyncLogRepository_create (sync_type : string) (success : bool)
    (details : option string) : M SyncLog.t :=
  let log := SyncLog.mk sync_type success details in
  fun w =>
    (Ok log, on_added (fun d => set_sync_logs (sync_logs d ++ [log]) d) w).

(** *** services.py *)

(** An assignment to attributes of the persistent opportunity at position
    [i]. *)
Definition assign_opportunity (i : nat) (f : Opportunity.t -> Opportunity.t)
    : M unit :=
  fun w =>
    (Ok tt,
     on_rows (fun d => set_opportunities (alter f i (opportunities d)) d) w).

(** Lines 75 to 79: an id given as a string goes through [uuid.UUID]. *)
Definition as_uuid (opportunity_id : string + UUID) : option UUID :=
  match opportunity_id with
  | inl s => uuid_of_string s
  | inr u => Some u
  end.

Definition update_sales_date (opportunity_id : string + UUID)
    (new_date : date) (updated_by : string) : M Opportunity.t :=
  opportunity_id <-
    match as_uuid opportunity_id with
    | Some u => ret u
    | None => raise (ValueError "Invalid opportunity id")
    end ;;
  found <- OpportunityRepository_get opportunity_id ;;
  match found with
  | None =>
      raise (ValueError
               ("Opportunity " +:+ string_of_uuid opportunity_id +:+ " not found"))
  | Some (i, opportunity) =>
      let previous_date := Opportunity.expected_close_date opportunity in
      assign_opportunity i (Opportunity.set_expected_close_date (Some new_date)) ;;;
      now <- datetime_utcnow ;;
      assign_opportunity i (Opportunity.set_updated_at now) ;;;
      let opportunity :=
        Opportunity.set_updated_at now
          (Opportunity.set_expected_close_date (Some new_date) opportunity) in
      sync <-
        (if truthy (Opportunity.infor_sales_order_id opportunity) then
           response <-
             skyline_update_sale_date
               (default EmptyString (Opportunity.infor_sales_order_id opportunity))
               new_date ;;
           if negb (SaleDateUpdateResponse.success response) then
             raise (RuntimeError
                      (or_else (SaleDateUpdateResponse.message response)
                         "Failed to update Infor Skyline"))
           else
             ret (SaleDateUpdateResponse.success response,
                  SaleDateUpdateResponse.reference response)
         else ret (false, None)) ;;
      SalesDateUpdateRepository_record opportunity previous_date new_date
        updated_by (fst sync) (snd sync) ;;;
      ret opportunity
  end.

(** The body of the [for] loop of [synchronise_invoices]; [acc] holds
    the local variables [processed] and [errors]. *)
Definition sync_payload (acc : nat * list string)
    (payload : InvoicePayload.t) : M (nat * list string) :=
  opportunity <-
    OpportunityRepository_get_by_infor_id
      (InvoicePayload.opportunity_external_id payload) ;;
  match opportunity with
  | None =>
      ret (fst acc,
           snd acc ++
           ["Unknown opportunity for invoice "
              +:+ InvoicePayload.external_id payload])
  | Some opportunity =>
      let status := resolve_status (InvoicePayload.status payload) in
      InvoiceRepository_upsert_from_payload opportunity
        (InvoicePayload.external_id payload) (InvoicePayload.amount payload)
        (InvoicePayload.issue_date payload) (InvoicePayload.due_date payload)
        status (InvoicePayload.currency payload) ;;;
      ret (S (fst acc), snd acc)
  end.

(** [details] of the log entry of a batch that ran to its end. *)
Definition batch_details (processed : nat) (errors : list string) : string :=
  let details := "Processed " +:+ str_of_nat processed +:+ " invoices" in
  match errors with
  | [] => details
  | _ :: _ => details +:+ "; warnings: " +:+ join " | " errors
  end.

Definition synchronise_invoices (since : option date) : M SyncResult :=
  since <-
    match since with
    | Some d => ret d
    | None =>
        now <- datetime_utcnow ;;
        ret (datetime_date (datetime_sub_days now 1))
    end ;;
  feed <- skyline_fetch_invoices since ;;
  acc <- for_each sync_payload (items feed) (0, []) ;;
  match failure feed with
  | None =>
      SyncLogRepository_create "invoice" (bool_decide (snd acc = []))
        (Some (batch_details (fst acc) (snd acc))) ;;;
      ret {| processed := fst acc; warnings := snd acc |}
  | Some exc =>
      let errors := snd acc ++ [str_exn exc] in
      SyncLogRepository_create "invoice" false (Some (join "; " errors)) ;;;
      raise exc
  end.

Definition build_sales_dashboard : M SalesDashboard.t :=
  open <- OpportunityRepository_list_open ;;
  let total_open_pipeline :=
    fold_left (fun total o => (total + Opportunity.amount o)%float) open 0%float in
  invoices <- (fun w => (Ok (invoices (rows (session w))), w)) ;;
  let totals :=
    fold_left
      (fun (acc : float * float * nat) invoice =>
         let '(total_invoiced, total_paid, overdue_invoices) := acc in
         let amount := Invoice.amount invoice in
         (total_invoiced + amount,
          if decide (Invoice.status invoice = paid)
          then total_paid + amount else total_paid,
          if decide (Invoice.status invoice = overdue)
          then S overdue_invoices else overdue_invoices)%float)
      invoices (0%float, 0%float, 0) in
  ret (SalesDashboard.mk total_open_pipeline (fst (fst totals))
         (snd (fst totals)) (snd totals)).

(** *** database.py and sync.py: a unit of work *)

(** What outlives a session: the committed tables, the clock and the
    remote system. *)
Record App : Type := {
  database : Database;
  app_clock_reads : nat;
  app_skyline_calls : list SkylineCall
}.

(** [with session_scope() as session: body]: commit when the body ends
    normally, roll back when the body or the commit raises. *)
Definition session_scope {A} (body : M A) (a : App) : Result A * App :=
  let w := {| session := SessionLocal (database a);
              clock_reads := app_clock_reads a;
              skyline_calls := app_skyline_calls a |} in
  let after (db : Database) (w' : World) :=
    {| database := db; app_clock_reads := clock_reads w';
       app_skyline_calls := skyline_calls w' |} in
  match body w with
  | (Ok x, w') =>
      match commit numeric_12_2 (session w') with
      | Ok db => (Ok x, after db w')
      | Raised e => (Raised e, after (database a) w')
      end
  | (Raised e, w') => (Raised e, after (database a) w')
  end.

(** The line [SyncManager._run_invoice_sync] prints; [timestamp] is
    [datetime.utcnow().isoformat()]. *)
Definition sync_summary (timestamp : string) (result : SyncResult) : string :=
  let message :=
    "[" +:+ timestamp +:+ "] Synced " +:+ str_of_nat (processed result)
      +:+ " invoices" in
  match warnings result with
  | [] => message
  | _ :: _ =>
      message +:+ " (warnings: " +:+ join " | " (warnings result) +:+ ")"
  end.

(** [SyncManager._run_invoice_sync]: inside the unit of work, the batch,
    then a read of the clock for the summary line. Standard output is not
    part of the state; the job is given the result of the batch as its
    value. *)
Definition _run_invoice_sync : App -> Result SyncResult * App :=
  session_scope
    (result <- synchronise_invoices None ;;
     now <- datetime_utcnow ;;
     ret result).

(** * Properties *)

(** ** Status resolution *)

Lemma InvoiceStatus_of_value_Some (v : string) (st : InvoiceStatus) :
  InvoiceStatus_of_value v = Some st <-> v = InvoiceStatus_value st.
Proof.
  unfold InvoiceStatus_of_value.
  destruct (String.eqb_spec v "draft") as [->|Hd]; [destruct st; split; (done || by inversion 1)|].
  destruct (String.eqb_spec v "issued") as [->|Hi]; [destruct st; split; (done || by inversion 1)|].
  destruct (String.eqb_spec v "paid") as [->|Hp]; [destruct st; split; (done || by inversion 1)|].
  destruct (String.eqb_spec v "overdue") as [->|Ho]; [destruct st; split; (done || by inversion 1)|].
  split; [done|]. intros ->. by destruct st.
Qed.

Lemma InvoiceStatus_of_value_None (v : string) :
  InvoiceStatus_of_value v = None <-> forall st, v <> InvoiceStatus_value st.
Proof.
  split.
  - intros Hn st Hv. apply InvoiceStatus_of_value_Some in Hv. congruence.
  - intros Hall. destruct (InvoiceStatus_of_value v) as [st|] eqn:E; [|done].
    apply InvoiceStatus_of_value_Some in E. by destruct (Hall st).
Qed.

Lemma resolve_status_default (text : string) :
  (forall st, text <> InvoiceStatus_value st) ->
  (forall st, lower text <> InvoiceStatus_value st) ->
  resolve_status text = issued.
Proof.
  intros Hexact Hlow. unfold resolve_status.
  apply InvoiceStatus_of_value_None in Hexact, Hlow.
  by rewrite Hexact, Hlow.
Qed.


(** ** Dashboard *)

(** The sum of a list of floats as the loops of [build_sales_dashboard]
    compute it: from [0.0], one addition per element, in list order. *)
Definition float_sum (l : list float) : float :=
  fold_left (fun total x => (total + x)%float) l 0%float.

Lemma fold_open_pipeline (l : list Opportunity.t) (acc : float) :
  fold_left (fun total o => (total + Opportunity.amount o)%float) l acc =
  fold_left (fun total x => (total + x)%float) (Opportunity.amount <$> l) acc.
Proof. revert acc. induction l as [|o l IH]; intros acc; [done|]. apply IH. Qed.

Lemma fold_invoice_totals (l : list Invoice.t) (ti tp : float) (ov : nat) :
  fold_left
    (fun (acc : float * float * nat) invoice =>
       let '(total_invoiced, total_paid, overdue_invoices) := acc in
       let amount := Invoice.amount invoice in
       (total_invoiced + amount,
        if decide (Invoice.status invoice = paid)
        then total_paid + amount else total_paid,
        if decide (Invoice.status invoice = overdue)
        then S overdue_invoices else overdue_invoices)%float)
    l (ti, tp, ov) =
  (fold_left (fun total x => (total + x)%float) (Invoice.amount <$> l) ti,
   fold_left (fun total x => (total + x)%float)
     (Invoice.amount <$> filter (fun i => Invoice.status i = paid) l) tp,
   ov + length (filter (fun i => Invoice.status i = overdue) l)).
Proof.
  revert ti tp ov. induction l as [|i l IH]; intros ti tp ov.
  - cbn. by rewrite Nat.add_0_r.
  - cbn [fold_left]. rewrite !filter_cons.
    destruct (decide (Invoice.status i = paid));
      destruct (decide (Invoice.status i = overdue));
      rewrite IH; cbn; repeat f_equal; lia.
Qed.

(** C9. [build_sales_dashboard] reads the store and changes nothing; the
    open pipeline total is the sum of [amount] over the opportunities whose
    stage is not [won] (an opportunity that is [lost] is one of them), the
    invoiced total is the sum of [amount] over all invoices, the paid total
    is the sum over the invoices with status [paid], and the overdue count
    is the number of invoices with status [overdue]. *)
Theorem build_sales_dashboard_totals (w : World) :
  let opps := opportunities (rows (session w)) in
  let invs := invoices (rows (session w)) in
  build_sales_dashboard w =
    (Ok (SalesDashboard.mk
           (float_sum
              (Opportunity.amount <$>
               filter (fun o => Opportunity.stage o <> won) opps))
           (float_sum (Invoice.amount <$> invs))
           (float_sum
              (Invoice.amount <$> filter (fun i => Invoice.status i = paid) invs))
           (length (filter (fun i => Invoice.status i = overdue) invs))),
     w) /\
  (forall o, o ∈ opps -> Opportunity.stage o = lost ->
     o ∈ filter (fun o => Opportunity.stage o <> won) opps).
Proof.
  intros opps invs. split.
  - unfold build_sales_dashboard, bind, OpportunityRepository_list_open, ret.
    cbn. rewrite fold_open_pipeline, fold_invoice_totals. done.
  - intros o Hin Hst. apply list_elem_of_filter. split; [|done]. by rewrite Hst.
Qed.

(** ** Sales-date workflow *)

Lemma alter_lookup {A} (f : A -> A) (l : list A) (i : nat) (x : A) :
  l !! i = Some x -> alter f i l = <[i := f x]> l.
Proof.
  revert i. induction l as [|y l IH]; intros [|i] Hi; simplify_eq/=; [done|].
  f_equal. by apply IH.
Qed.

(** The world after the two assignments to the opportunity at position
    [i] and the read of the clock between them. *)
Definition opportunity_assigned (i : nat) (o' : Opportunity.t) (w : World)
    : World :=
  {| session :=
       {| rows := set_opportunities
                    (<[i := o']> (opportunities (rows (session w))))
                    (rows (session w));
          added := added (session w);
          assigned_invoices := assigned_invoices (session w) |};
     clock_reads := S (clock_reads w);
     skyline_calls := skyline_calls w |}.

(** What [update_sales_date] does once the opportunity is found: the local
    change first, then the remote call when the order id is truthy, then
    the audit record. *)
Lemma update_sales_date_found (w : World) (arg : string + UUID) (oid : UUID)
    (i : nat) (o : Opportunity.t) (new_date : date) (updated_by : string) :
  as_uuid arg = Some oid ->
  list_find (fun o => Opportunity.id o = oid)
    (opportunities (rows (session w))) = Some (i, o) ->
  let o' := Opportunity.set_updated_at (utcnow (clock_reads w))
              (Opportunity.set_expected_close_date (Some new_date) o) in
  let w1 := opportunity_assigned i o' w in
  let order_id := default EmptyString (Opportunity.infor_sales_order_id o) in
  let w2 := record_call (CallUpdateSaleDate order_id new_date) w1 in
  let recorded (synced : bool) (reference : option string) (w : World) :=
    on_added
      (fun d =>
         set_sales_date_updates
           (sales_date_updates d ++
            [SalesDateUpdate.mk (Opportunity.id o)
               (Opportunity.expected_close_date o) new_date updated_by
               synced reference]) d) w in
  update_sales_date arg new_date updated_by w =
    if truthy (Opportunity.infor_sales_order_id o) then
      match update_sale_date skyline_client order_id new_date with
      | Raised e => (Raised e, w2)
      | Ok response =>
          if SaleDateUpdateResponse.success response then
            (Ok o',
             recorded true (SaleDateUpdateResponse.reference response) w2)
          else
            (Raised (RuntimeError
                       (or_else (SaleDateUpdateResponse.message response)
                          "Failed to update Infor Skyline")), w2)
      end
    else (Ok o', recorded false None w1).
Proof.
  intros Harg Hfind o' w1 order_id w2 recorded.
  apply list_find_Some in Hfind as Hfind'. destruct Hfind' as (Hi & _ & _).
  unfold update_sales_date, bind. rewrite Harg. cbn.
  rewrite Hfind. cbn.
  match goal with
  | |- context [on_rows ?f ?x] => replace (on_rows f x) with w1
  end.
  2:{ unfold w1, opportunity_assigned, on_rows, set_opportunities. cbn.
      rewrite list_alter_alter_eq.
      by rewrite (alter_lookup _ _ _ _ Hi). }
  change (Opportunity.infor_sales_order_id o') with
    (Opportunity.infor_sales_order_id o).
  destruct (truthy (Opportunity.infor_sales_order_id o)); [|done].
  unfold skyline_update_sale_date. fold order_id. fold w2.
  destruct (update_sale_date skyline_client order_id new_date) as [r|e]; [|done].
  by destruct (SaleDateUpdateResponse.success r).
Qed.

(** C7. For an opportunity with no external order id, [update_sales_date]
    sets its expected close date to the new date, makes no call to the
    Infor Skyline client, adds exactly one sales-date update whose previous
    date is the expected close date the opportunity had, with
    [synced_with_infor = False] and no remote reference, and returns the
    updated opportunity, which is the one stored at its position. *)
Theorem update_sales_date_without_order_id (w : World) (arg : string + UUID)
    (oid : UUID) (i : nat) (o : Opportunity.t) (new_date : date)
    (updated_by : string) :
  as_uuid arg = Some oid ->
  list_find (fun o => Opportunity.id o = oid)
    (opportunities (rows (session w))) = Some (i, o) ->
  Opportunity.infor_sales_order_id o = None ->
  exists (o' : Opportunity.t) (w' : World),
    update_sales_date arg new_date updated_by w = (Ok o', w') /\
    o' = Opportunity.set_updated_at (utcnow (clock_reads w))
           (Opportunity.set_expected_close_date (Some new_date) o) /\
    Opportunity.expected_close_date o' = Some new_date /\
    opportunities (rows (session w')) =
      <[i := o']> (opportunities (rows (session w))) /\
    opportunities (rows (session w')) !! i = Some o' /\
    skyline_calls w' = skyline_calls w /\
    sales_date_updates (added (session w')) =
      sales_date_updates (added (session w)) ++
      [SalesDateUpdate.mk (Opportunity.id o) (Opportunity.expected_close_date o)
         new_date updated_by false None] /\
    sales_date_updates (rows (session w')) =
      sales_date_updates (rows (session w)).
Proof.
  intros Harg Hfind Hnone.
  rewrite (update_sales_date_found w arg oid i o new_date updated_by Harg Hfind).
  rewrite Hnone. cbn [truthy].
  apply list_find_Some in Hfind as (Hi & _ & _).
  do 2 eexists. split; [reflexivity|]. cbn.
  repeat split; try done.
  apply list_lookup_insert_eq. by eapply lookup_lt_Some.
Qed.

(** C10. A call of [update_sales_date] whose new date is the expected close
    date the opportunity already has is no special case: when the call
    succeeds, it has added one sales-date update, whose previous date and
    new date are both that date. *)
Theorem update_sales_date_same_date (w w' : World) (arg : string + UUID)
    (oid : UUID) (i : nat) (o o' : Opportunity.t) (new_date : date)
    (updated_by : string) :
  as_uuid arg = Some oid ->
  list_find (fun o => Opportunity.id o = oid)
    (opportunities (rows (session w))) = Some (i, o) ->
  Opportunity.expected_close_date o = Some new_date ->
  update_sales_date arg new_date updated_by w = (Ok o', w') ->
  exists entry : SalesDateUpdate.t,
    sales_date_updates (added (session w')) =
      sales_date_updates (added (session w)) ++ [entry] /\
    SalesDateUpdate.opportunity entry = Opportunity.id o /\
    SalesDateUpdate.previous_date entry = Some new_date /\
    SalesDateUpdate.new_date entry = new_date /\
    SalesDateUpdate.updated_by entry = updated_by.
Proof.
  intros Harg Hfind Hsame.
  rewrite (update_sales_date_found w arg oid i o new_date updated_by Harg Hfind).
  rewrite Hsame.
  destruct (truthy (Opportunity.infor_sales_order_id o)).
  - destruct (update_sale_date skyline_client _ new_date) as [r|e]; [|done].
    destruct (SaleDateUpdateResponse.success r); [|done].
    intros [= <- <-]. eexists. cbn. by repeat split.
  - intros [= <- <-]. eexists. cbn. by repeat split.
Qed.

(** C2, amended. For an opportunity that carries an external order id,
    when the client's [update_sale_date] answers with [success = False]:
    if the order id is not the empty string, [update_sales_date] raises a
    [RuntimeError] and adds no sales-date update, after one call of the
    client for that order id and date; the text of the error is the
    message of the answer when that message is a string that is not
    empty, and "Failed to update Infor Skyline" when the answer has no
    message or an empty one. If the order id is the empty string the
    client is not called at all: the call returns and records the change
    as not synced. *)
Theorem update_sales_date_rejected (w : World) (arg : string + UUID)
    (oid : UUID) (i : nat) (o : Opportunity.t) (order_id : string)
    (new_date : date) (updated_by : string)
    (response : SaleDateUpdateResponse.t) :
  as_uuid arg = Some oid ->
  list_find (fun o => Opportunity.id o = oid)
    (opportunities (rows (session w))) = Some (i, o) ->
  Opportunity.infor_sales_order_id o = Some order_id ->
  update_sale_date skyline_client order_id new_date = Ok response ->
  SaleDateUpdateResponse.success response = false ->
  (order_id <> EmptyString ->
   exists (text : string) (w' : World),
     update_sales_date arg new_date updated_by w =
       (Raised (RuntimeError text), w') /\
     (forall msg, SaleDateUpdateResponse.message response = Some msg ->
        msg <> EmptyString -> text = msg) /\
     (SaleDateUpdateResponse.message response = None \/
      SaleDateUpdateResponse.message response = Some EmptyString ->
      text = "Failed to update Infor Skyline") /\
     sales_date_updates (added (session w')) =
       sales_date_updates (added (session w)) /\
     sales_date_updates (rows (session w')) =
       sales_date_updates (rows (session w)) /\
     skyline_calls w' =
       skyline_calls w ++ [CallUpdateSaleDate order_id new_date]) /\
  (order_id = EmptyString ->
   exists (o' : Opportunity.t) (w' : World),
     update_sales_date arg new_date updated_by w = (Ok o', w') /\
     skyline_calls w' = skyline_calls w /\
     sales_date_updates (added (session w')) =
       sales_date_updates (added (session w)) ++
       [SalesDateUpdate.mk (Opportunity.id o) (Opportunity.expected_close_date o)
          new_date updated_by false None]).
Proof.
  intros Harg Hfind Hid Hcall Hfail.
  rewrite (update_sales_date_found w arg oid i o new_date updated_by Harg Hfind).
  rewrite Hid. cbn [default from_option id].
  split.
  - intros Hne. destruct order_id as [|c s]; [done|]. cbn [truthy].
    rewrite Hcall, Hfail.
    eexists _, _. split; [reflexivity|]. cbn.
    split; [|split; [|done]].
    + intros msg -> Hmne. by destruct msg.
    + by intros [-> | ->].
  - intros ->. cbn [truthy]. eexists _, _. split; [reflexivity|]. by cbn.
Qed.

(** ** Upsert *)

(** C8. When the external id of the payload names a stored invoice, the
    upsert writes the amount, the issue date, the due date, the status, the
    currency and the last-sync time of that invoice and nothing else: the
    invoice keeps its owning opportunity, whatever opportunity the payload
    resolved to, and its external id; the other invoices, the other
    tables, the objects added to the session and the calls to the remote
    system stay as they were. *)
Theorem upsert_existing_keeps_owner (w : World) (opportunity : Opportunity.t)
    (external_id : string) (amount : float) (issue_date : date)
    (due_date : option date) (status : InvoiceStatus) (currency : string)
    (i : nat) (invoice : Invoice.t) :
  list_find (fun x => Invoice.external_id x = Some external_id)
    (invoices (rows (session w))) = Some (i, invoice) ->
  exists (invoice' : Invoice.t) (w' : World),
    InvoiceRepository_upsert_from_payload opportunity external_id amount
      issue_date due_date status currency w = (Ok invoice', w') /\
    invoice' =
      Invoice.mk (Invoice.opportunity invoice) (Some external_id) amount
        issue_date due_date status currency (Some (utcnow (clock_reads w))) /\
    invoices (rows (session w')) =
      <[i := invoice']> (invoices (rows (session w))) /\
    invoices (rows (session w')) !! i = Some invoice' /\
    (forall j, j <> i ->
       invoices (rows (session w')) !! j = invoices (rows (session w)) !! j) /\
    opportunities (rows (session w')) = opportunities (rows (session w)) /\
    sales_date_updates (rows (session w')) =
      sales_date_updates (rows (session w)) /\
    sync_logs (rows (session w')) = sync_logs (rows (session w)) /\
    added (session w') = added (session w) /\
    skyline_calls w' = skyline_calls w.
Proof.
  intros Hfind.
  unfold InvoiceRepository_upsert_from_payload, bind,
    select_invoice_by_external_id.
  rewrite Hfind. cbn.
  apply list_find_Some in Hfind as (Hi & Hext & _).
  do 2 eexists. split; [reflexivity|]. cbn. rewrite Hext.
  repeat split; try done.
  - apply list_lookup_insert_eq. by eapply lookup_lt_Some.
  - intros j Hj. by apply list_lookup_insert_ne.
Qed.

(** ** Invoice synchronisation: one payload *)

(** Everything but the invoices and the clock is the same in [w] and
    [w']. *)
Definition same_but_invoices (w w' : World) : Prop :=
  opportunities (rows (session w')) = opportunities (rows (session w)) /\
  opportunities (added (session w')) = opportunities (added (session w)) /\
  sales_date_updates (rows (session w')) = sales_date_updates (rows (session w)) /\
  sales_date_updates (added (session w')) = sales_date_updates (added (session w)) /\
  sync_logs (rows (session w')) = sync_logs (rows (session w)) /\
  sync_logs (added (session w')) = sync_logs (added (session w)) /\
  skyline_calls w' = skyline_calls w.

Lemma same_but_invoices_refl (w : World) : same_but_invoices w w.
Proof. by repeat split. Qed.

Lemma same_but_invoices_trans (w1 w2 w3 : World) :
  same_but_invoices w1 w2 -> same_but_invoices w2 w3 ->
  same_but_invoices w1 w3.
Proof.
  unfold same_but_invoices. intros (?&?&?&?&?&?&?) (?&?&?&?&?&?&?).
  repeat split; congruence.
Qed.

(** The invoice of a payload: the columns the upsert writes. *)
Definition carries (p : InvoicePayload.t) (inv : Invoice.t) : Prop :=
  Invoice.external_id inv = Some (InvoicePayload.external_id p) /\
  Invoice.amount inv = InvoicePayload.amount p /\
  Invoice.issue_date inv = InvoicePayload.issue_date p /\
  Invoice.due_date inv = InvoicePayload.due_date p /\
  Invoice.status inv = resolve_status (InvoicePayload.status p) /\
  Invoice.currency inv = InvoicePayload.currency p.

(** The upsert always returns: it writes the stored invoice with that
    external id in place, or adds a new invoice to the session. *)
Lemma upsert_from_payload_spec (w : World) (opportunity : Opportunity.t)
    (external_id : string) (amount : float) (issue_date : date)
    (due_date : option date) (status : InvoiceStatus) (currency : string) :
  exists (inv : Invoice.t) (w' : World),
    InvoiceRepository_upsert_from_payload opportunity external_id amount
      issue_date due_date status currency w = (Ok inv, w') /\
    Invoice.external_id inv = Some external_id /\
    Invoice.amount inv = amount /\
    Invoice.issue_date inv = issue_date /\
    Invoice.due_date inv = due_date /\
    Invoice.status inv = status /\
    Invoice.currency inv = currency /\
    same_but_invoices w w' /\
    ((exists i old,
        list_find (fun x => Invoice.external_id x = Some external_id)
          (invoices (rows (session w))) = Some (i, old) /\
        invoices (rows (session w')) = <[i := inv]> (invoices (rows (session w))) /\
        invoices (added (session w')) = invoices (added (session w)) /\
        Invoice.opportunity inv = Invoice.opportunity old) \/
     (list_find (fun x => Invoice.external_id x = Some external_id)
        (invoices (rows (session w))) = None /\
      invoices (rows (session w')) = invoices (rows (session w)) /\
      invoices (added (session w')) = invoices (added (session w)) ++ [inv] /\
      Invoice.opportunity inv = Opportunity.id opportunity)).
Proof.
  unfold InvoiceRepository_upsert_from_payload, bind,
    select_invoice_by_external_id.
  destruct (list_find _ (invoices (rows (session w)))) as [[i old]|] eqn:Hfind; cbn.
  - apply list_find_Some in Hfind as Hf. destruct Hf as (_ & Hext & _).
    do 2 eexists. split; [reflexivity|]. cbn.
    repeat split; try done.
    left. exists i, old. by repeat split.
  - do 2 eexists. split; [reflexivity|]. cbn.
    repeat split; try done.
    right. by repeat split.
Qed.

(** The warning of a payload whose opportunity is unknown. *)
Definition unknown_warning (p : InvoicePayload.t) : string :=
  "Unknown opportunity for invoice " +:+ InvoicePayload.external_id p.

(** The payload names an external order id that a stored opportunity
    has. *)
Definition known (opps : list Opportunity.t) (p : InvoicePayload.t) : Prop :=
  is_Some
    (list_find
       (fun o => Opportunity.infor_sales_order_id o =
                 Some (InvoicePayload.opportunity_external_id p)) opps).

#[local] Instance known_dec opps p : Decision (known opps p).
Proof. unfold known. apply _. Defined.

Lemma not_known_iff (opps : list Opportunity.t) (p : InvoicePayload.t) :
  ~ known opps p <->
  forall o, o ∈ opps ->
    Opportunity.infor_sales_order_id o <>
    Some (InvoicePayload.opportunity_external_id p).
Proof.
  unfold known. rewrite <- eq_None_not_Some, list_find_None, Forall_forall.
  done.
Qed.

Lemma sync_payload_unknown (w : World) (acc : nat * list string)
    (p : InvoicePayload.t) :
  ~ known (opportunities (rows (session w))) p ->
  sync_payload acc p w = (Ok (fst acc, snd acc ++ [unknown_warning p]), w).
Proof.
  unfold known. rewrite <- eq_None_not_Some. intros Hnone.
  unfold sync_payload, bind, OpportunityRepository_get_by_infor_id.
  by rewrite Hnone.
Qed.

Lemma sync_payload_known (w : World) (acc : nat * list string)
    (p : InvoicePayload.t) :
  known (opportunities (rows (session w))) p ->
  exists (k : nat) (opportunity : Opportunity.t) (inv : Invoice.t) (w' : World),
    list_find
      (fun o => Opportunity.infor_sales_order_id o =
                Some (InvoicePayload.opportunity_external_id p))
      (opportunities (rows (session w))) = Some (k, opportunity) /\
    InvoiceRepository_upsert_from_payload opportunity
      (InvoicePayload.external_id p) (InvoicePayload.amount p)
      (InvoicePayload.issue_date p) (InvoicePayload.due_date p)
      (resolve_status (InvoicePayload.status p))
      (InvoicePayload.currency p) w = (Ok inv, w') /\
    sync_payload acc p w = (Ok (S (fst acc), snd acc), w').
Proof.
  intros [[k opportunity] Hfind].
  destruct (upsert_from_payload_spec w opportunity
              (InvoicePayload.external_id p) (InvoicePayload.amount p)
              (InvoicePayload.issue_date p) (InvoicePayload.due_date p)
              (resolve_status (InvoicePayload.status p))
              (InvoicePayload.currency p)) as (inv & w' & Hup & _).
  exists k, opportunity, inv, w'. repeat split; [done..|].
  unfold sync_payload, bind, OpportunityRepository_get_by_infor_id.
  rewrite Hfind. cbn -[InvoiceRepository_upsert_from_payload].
  by rewrite Hup.
Qed.

(** ** Invoice synchronisation: the loop *)

Lemma for_each_app {A S} (body : S -> A -> M S) (l1 l2 : list A) (acc : S)
    (w : World) :
  for_each body (l1 ++ l2) acc w =
    match for_each body l1 acc w with
    | (Ok acc1, w1) => for_each body l2 acc1 w1
    | (Raised e, w1) => (Raised e, w1)
    end.
Proof.
  revert acc w. induction l1 as [|x l1 IH]; intros acc w; [done|].
  cbn. unfold bind. destruct (body acc x w) as [[acc1|e] w1]; [apply IH|done].
Qed.

(** The loop never raises; it counts the payloads whose opportunity is
    known and warns, in order, about the others; it touches only the
    invoices and the clock. *)
Lemma for_each_sync_payload (ps : list InvoicePayload.t)
    (acc : nat * list string) (w : World) :
  let opps := opportunities (rows (session w)) in
  exists w' : World,
    for_each sync_payload ps acc w =
      (Ok (fst acc + length (filter (known opps) ps),
           snd acc ++ (unknown_warning <$> filter (fun p => ~ known opps p) ps)),
       w') /\
    same_but_invoices w w'.
Proof.
  revert acc w. induction ps as [|p ps IH]; intros acc w opps.
  - exists w. cbn. rewrite Nat.add_0_r, app_nil_r. destruct acc.
    split; [done|apply same_but_invoices_refl].
  - cbn [for_each]. unfold bind. rewrite !filter_cons.
    destruct (decide (known opps p)) as [Hk|Hk].
    + destruct (sync_payload_known w acc p Hk)
        as (k & o & inv & w1 & _ & Hup & ->).
      destruct (upsert_from_payload_spec w o
                  (InvoicePayload.external_id p) (InvoicePayload.amount p)
                  (InvoicePayload.issue_date p) (InvoicePayload.due_date p)
                  (resolve_status (InvoicePayload.status p))
                  (InvoicePayload.currency p))
        as (inv' & w1' & Hup' & _ & _ & _ & _ & _ & _ & Hsame & _).
      rewrite Hup in Hup'. injection Hup' as <- <-.
      destruct (IH (S (fst acc), snd acc) w1) as (w' & Hloop & Hsame').
      assert (Hopps : opportunities (rows (session w1)) = opps)
        by apply Hsame.
      rewrite Hopps in Hloop.
      exists w'. rewrite Hloop. cbn [fst snd length].
      rewrite decide_False by (intros Hn; by apply Hn).
      split; [by rewrite Nat.add_succ_r|].
      by eapply same_but_invoices_trans.
    + rewrite (sync_payload_unknown w acc p Hk).
      destruct (IH (fst acc, snd acc ++ [unknown_warning p]) w)
        as (w' & Hloop & Hsame').
      exists w'. fold opps in Hloop. rewrite Hloop. cbn [fst snd].
      rewrite decide_True by done.
      split; [|done]. rewrite fmap_cons, <- app_assoc. done.
Qed.

(** ** Invoice synchronisation: the batch *)

(** The [since] the client is asked with. *)
Definition effective_since (since : option date) (w : World) : date :=
  match since with
  | Some d => d
  | None => datetime_date (datetime_sub_days (utcnow (clock_reads w)) 1)
  end.

(** The log entry of a batch, by the way the iteration ended. *)
Definition batch_log (failure : option exn) (processed : nat)
    (errors : list string) : SyncLog.t :=
  match failure with
  | None =>
      SyncLog.mk "invoice" (bool_decide (errors = []))
        (Some (batch_details processed errors))
  | Some exc =>
      SyncLog.mk "invoice" false (Some (join "; " (errors ++ [str_exn exc])))
  end.

(** What a batch returns and what it logs. *)
Lemma synchronise_invoices_spec (w : World) (since : option date) :
  let feed := fetch_invoices skyline_client (effective_since since w) in
  let opps := opportunities (rows (session w)) in
  let n := length (filter (known opps) (items feed)) in
  let errors :=
    unknown_warning <$> filter (fun p => ~ known opps p) (items feed) in
  exists w' : World,
    synchronise_invoices since w =
      (match failure feed with
       | None => Ok {| processed := n; warnings := errors |}
       | Some exc => Raised exc
       end, w') /\
    sync_logs (added (session w')) =
      sync_logs (added (session w)) ++ [batch_log (failure feed) n errors] /\
    sync_logs (rows (session w')) = sync_logs (rows (session w)) /\
    opportunities (rows (session w')) = opps /\
    opportunities (added (session w')) = opportunities (added (session w)) /\
    skyline_calls w' =
      skyline_calls w ++ [CallFetchInvoices (effective_since since w)].
Proof.
  intros feed opps n errors.
  unfold synchronise_invoices, bind.
  set (w0 := match since with
             | Some _ => w
             | None => {| session := session w;
                          clock_reads := S (clock_reads w);
                          skyline_calls := skyline_calls w |}
             end).
  assert (Hstart :
    (match since with
     | Some d => ret d
     | None => fun w1 =>
         let (r, w2) := datetime_utcnow w1 in
         match r with
         | Ok now => ret (datetime_date (datetime_sub_days now 1)) w2
         | Raised e => (Raised e, w2)
         end
     end) w = (Ok (effective_since since w), w0)).
  { destruct since; done. }
  rewrite Hstart. unfold skyline_fetch_invoices. fold feed.
  destruct (for_each_sync_payload (items feed) (0, [])
              (record_call (CallFetchInvoices (effective_since since w)) w0))
    as (w1 & Hloop & Hsame).
  assert (Hopps :
    opportunities
      (rows (session (record_call (CallFetchInvoices (effective_since since w)) w0)))
    = opps) by (unfold w0; by destruct since).
  cbn zeta in Hloop. rewrite Hopps in Hloop. cbn [fst snd] in Hloop.
  rewrite Nat.add_0_l, app_nil_l in Hloop. fold n errors in Hloop.
  rewrite Hloop. cbn [fst snd].
  destruct Hsame as (Ho & Hoa & _ & _ & Hl & Hla & Hc).
  assert (Hw0 : forall f : World -> Session,
     (f = session) ->
     session (record_call (CallFetchInvoices (effective_since since w)) w0)
     = session w) by (intros; unfold w0; by destruct since).
  specialize (Hw0 session eq_refl).
  rewrite Hw0 in Ho, Hoa, Hl, Hla.
  assert (Hcalls :
    skyline_calls (record_call (CallFetchInvoices (effective_since since w)) w0)
    = skyline_calls w ++ [CallFetchInvoices (effective_since since w)])
    by (unfold w0; by destruct since).
  rewrite Hcalls in Hc.
  destruct (failure feed) as [exc|]; cbn;
    eexists; (split; [reflexivity|]); cbn; rewrite Hla, Hl, Ho, Hoa, Hc; done.
Qed.

(** C3. Every call of [synchronise_invoices] adds exactly one log entry to
    the session. With [n] the number of payloads whose opportunity is known
    and [errors] the warnings about the others (what the loop has counted
    and gathered): when the iteration over the payloads ends normally, the
    call returns [n] and [errors], the entry's success flag says whether
    [errors] is empty, and its details give the processed count followed,
    when there are warnings, by the warnings joined; when the iteration
    raises, the entry has [success = False], its details are [errors]
    followed by the text of the exception, and the call raises that
    exception. *)
Theorem synchronise_invoices_logs_once (w : World) (since : option date) :
  let feed := fetch_invoices skyline_client (effective_since since w) in
  let opps := opportunities (rows (session w)) in
  let n := length (filter (known opps) (items feed)) in
  let errors :=
    unknown_warning <$> filter (fun p => ~ known opps p) (items feed) in
  exists (result : Result SyncResult) (w' : World) (log : SyncLog.t),
    synchronise_invoices since w = (result, w') /\
    sync_logs (added (session w')) = sync_logs (added (session w)) ++ [log] /\
    sync_logs (rows (session w')) = sync_logs (rows (session w)) /\
    SyncLog.sync_type log = "invoice" /\
    match failure feed with
    | None =>
        result = Ok {| processed := n; warnings := errors |} /\
        SyncLog.success log = bool_decide (errors = []) /\
        SyncLog.details log =
          Some (match errors with
                | [] => "Processed " +:+ str_of_nat n +:+ " invoices"
                | _ :: _ =>
                    ("Processed " +:+ str_of_nat n +:+ " invoices")
                      +:+ "; warnings: " +:+ join " | " errors
                end)
    | Some exc =>
        result = Raised exc /\
        SyncLog.success log = false /\
        SyncLog.details log = Some (join "; " (errors ++ [str_exn exc]))
    end.
Proof.
  intros feed opps n errors.
  destruct (synchronise_invoices_spec w since)
    as (w' & Hrun & Hadded & Hrows & _).
  fold feed opps n errors in Hrun, Hadded.
  eexists _, w', (batch_log (failure feed) n errors).
  split; [exact Hrun|]. split; [exact Hadded|]. split; [exact Hrows|].
  unfold batch_log, batch_details.
  destruct (failure feed) as [exc|]; cbn; [done|].
  by destruct errors.
Qed.

(** C4. A payload whose external order id is the id of no stored
    opportunity gets one warning, "Unknown opportunity for invoice"
    followed by its external invoice id; the step leaves the world as it
    is (no invoice is written or added) and the processed count as it is;
    the loop goes on with the payloads after it; and a batch whose
    iteration ends normally returns a count and warnings in which the
    payload is a warning and not a processed record. *)
Theorem unknown_opportunity_skipped (w : World) (since : option date)
    (acc : nat * list string) (pre post : list InvoicePayload.t)
    (p : InvoicePayload.t) :
  (forall o, o ∈ opportunities (rows (session w)) ->
     Opportunity.infor_sales_order_id o <>
     Some (InvoicePayload.opportunity_external_id p)) ->
  let opps := opportunities (rows (session w)) in
  let warning :=
    "Unknown opportunity for invoice " +:+ InvoicePayload.external_id p in
  sync_payload acc p w = (Ok (fst acc, snd acc ++ [warning]), w) /\
  (exists (acc1 : nat * list string) (w1 : World),
     for_each sync_payload pre acc w = (Ok acc1, w1) /\
     sync_payload acc1 p w1 = (Ok (fst acc1, snd acc1 ++ [warning]), w1) /\
     for_each sync_payload (pre ++ p :: post) acc w =
       for_each sync_payload post (fst acc1, snd acc1 ++ [warning]) w1) /\
  (items (fetch_invoices skyline_client (effective_since since w)) =
     pre ++ p :: post ->
   failure (fetch_invoices skyline_client (effective_since since w)) = None ->
   exists w' : World,
     synchronise_invoices since w =
       (Ok {| processed := length (filter (known opps) (pre ++ post));
              warnings :=
                (unknown_warning <$> filter (fun q => ~ known opps q) pre) ++
                warning ::
                (unknown_warning <$> filter (fun q => ~ known opps q) post) |},
        w')).
Proof.
  intros Hno opps warning. apply not_known_iff in Hno. fold opps in Hno.
  split; [by apply sync_payload_unknown|]. split.
  - destruct (for_each_sync_payload pre acc w) as (w1 & Hpre & Hsame).
    cbn zeta in Hpre. fold opps in Hpre.
    assert (Hopps : opportunities (rows (session w1)) = opps) by apply Hsame.
    eexists _, w1. split; [exact Hpre|].
    assert (Hstep : forall a, sync_payload a p w1 =
                      (Ok (fst a, snd a ++ [warning]), w1)).
    { intros a. apply sync_payload_unknown. by rewrite Hopps. }
    split; [apply Hstep|].
    rewrite for_each_app, Hpre. cbn [for_each]. unfold bind.
    by rewrite Hstep.
  - intros Hitems Hfail.
    destruct (synchronise_invoices_spec w since) as (w' & Hrun & _).
    rewrite Hfail, Hitems in Hrun. fold opps in Hrun.
    exists w'. rewrite Hrun. do 3 f_equal.
    + rewrite !filter_app, filter_cons, decide_False by done.
      by rewrite !length_app.
    + rewrite filter_app, filter_cons, decide_True by done.
      by rewrite fmap_app, fmap_cons.
Qed.

(** C5, amended. A payload whose status text is the value of no canonical
    status, also after lowering, and whose opportunity is known, is
    processed with no warning: the step counts it and upserts its invoice
    with status [issued], the warnings stay as they were. The warnings of a
    batch, [errors], are those about the payloads with an unknown
    opportunity, one for each in feed order, and no others; they are the
    warnings the batch returns, and the details of the one log entry the
    batch adds are made of the processed count and [errors] (of [errors]
    and the text of the exception, when the iteration raises). *)
Theorem unparseable_status_not_warned (w : World) (since : option date)
    (acc : nat * list string) (p : InvoicePayload.t) :
  (forall st, InvoicePayload.status p <> InvoiceStatus_value st) ->
  (forall st, lower (InvoicePayload.status p) <> InvoiceStatus_value st) ->
  known (opportunities (rows (session w))) p ->
  (exists (inv : Invoice.t) (w' : World),
     sync_payload acc p w = (Ok (S (fst acc), snd acc), w') /\
     (inv ∈ invoices (rows (session w')) \/
      inv ∈ invoices (added (session w'))) /\
     Invoice.external_id inv = Some (InvoicePayload.external_id p) /\
     Invoice.status inv = issued /\
     Invoice.amount inv = InvoicePayload.amount p) /\
  (let feed := fetch_invoices skyline_client (effective_since since w) in
   let opps := opportunities (rows (session w)) in
   exists (result : Result SyncResult) (w' : World) (errors : list string)
       (log : SyncLog.t),
     synchronise_invoices since w = (result, w') /\
     (forall r, result = Ok r -> warnings r = errors) /\
     (forall msg, msg ∈ errors ->
        exists q,
          q ∈ items feed /\
          ~ known opps q /\
          msg = "Unknown opportunity for invoice "
                  +:+ InvoicePayload.external_id q) /\
     errors =
       (fun q => "Unknown opportunity for invoice "
                   +:+ InvoicePayload.external_id q) <$>
       filter (fun q => ~ known opps q) (items feed) /\
     sync_logs (added (session w')) = sync_logs (added (session w)) ++ [log] /\
     SyncLog.details log =
       Some (match failure feed with
             | None =>
                 batch_details (length (filter (known opps) (items feed)))
                   errors
             | Some exc => join "; " (errors ++ [str_exn exc])
             end)).
Proof.
  intros Hexact Hlower Hknown. split.
  - destruct (sync_payload_known w acc p Hknown)
      as (k & o & inv & w' & _ & Hup & Hstep).
    destruct (upsert_from_payload_spec w o
                (InvoicePayload.external_id p) (InvoicePayload.amount p)
                (InvoicePayload.issue_date p) (InvoicePayload.due_date p)
                (resolve_status (InvoicePayload.status p))
                (InvoicePayload.currency p))
      as (inv' & w'' & Hup' & Hext & Ham & _ & _ & Hst & _ & _ & Hwhere).
    rewrite Hup in Hup'. injection Hup' as <- <-.
    exists inv, w'. split; [done|].
    assert (Hissued : resolve_status (InvoicePayload.status p) = issued).
    { by apply resolve_status_default. }
    rewrite Hissued in Hst.
    repeat split; try done.
    destruct Hwhere as [(i & old & Hfind & Hrows & _)|(_ & _ & Hadd & _)].
    + left. rewrite Hrows. apply list_elem_of_lookup. exists i.
      apply list_lookup_insert_eq.
      apply list_find_Some in Hfind as (Hi & _). by eapply lookup_lt_Some.
    + right. rewrite Hadd. apply elem_of_app. right. by left.
  - intros feed opps.
    destruct (synchronise_invoices_spec w since) as (w' & Hrun & Hlog & _).
    fold feed opps in Hrun, Hlog.
    eexists _, w', _, _. split; [exact Hrun|]. split; [|split; [|split]].
    + intros r Hr. destruct (failure feed); [done|]. by injection Hr as <-.
    + intros msg Hmsg. apply list_elem_of_fmap in Hmsg as (q & -> & Hq).
      apply list_elem_of_filter in Hq as (Hnk & Hq).
      by exists q.
    + reflexivity.
    + split; [exact Hlog|]. unfold batch_log. by destruct (failure feed).
Qed.

(** ** Invoice synchronisation: the upsert key *)

(** Facts about the external ids of a table. *)

Lemma omap_fmap_eq {A B C} (f : A -> option C) (g : B -> option C)
    (l1 : list A) (l2 : list B) :
  f <$> l1 = g <$> l2 -> omap f l1 = omap g l2.
Proof.
  revert l2. induction l1 as [|x l1 IH]; intros [|y l2] Heq; simplify_eq/=;
    [done|].
  rewrite H. destruct (g y); [f_equal|]; by apply IH.
Qed.

Lemma fmap_insert_same {A B} (f : A -> B) (l : list A) (i : nat) (old x : A) :
  l !! i = Some old -> f x = f old -> f <$> <[i := x]> l = f <$> l.
Proof.
  intros Hi Hf. rewrite list_fmap_insert, Hf.
  apply list_insert_id. by rewrite list_lookup_fmap, Hi.
Qed.

Lemma elem_of_insert_other {A} (l : list A) (i : nat) (old x y : A) :
  l !! i = Some old -> y ∈ l -> y <> old -> y ∈ <[i := x]> l.
Proof.
  intros Hi Hy Hne. apply list_elem_of_lookup in Hy as [j Hj].
  apply list_elem_of_lookup. exists j.
  rewrite list_lookup_insert_ne; [done|]. intros ->. congruence.
Qed.

Lemma filter_external_id_nil (l : list Invoice.t) (e : string) :
  e ∉ omap Invoice.external_id l ->
  filter (fun y => Invoice.external_id y = Some e) l = [].
Proof.
  induction l as [|y l IH]; intros Hnot; [done|].
  rewrite filter_cons.
  destruct (decide (Invoice.external_id y = Some e)) as [Hy|Hy].
  - destruct Hnot. apply list_elem_of_omap. exists y. split; [by left|done].
  - apply IH. intros Hin. apply Hnot.
    apply list_elem_of_omap in Hin as (z & Hz & Hze).
    apply list_elem_of_omap. exists z. split; [by right|done].
Qed.

Lemma unique_external_ids_filter (l : list Invoice.t) (x : Invoice.t)
    (e : string) :
  unique_external_ids l -> x ∈ l -> Invoice.external_id x = Some e ->
  filter (fun y => Invoice.external_id y = Some e) l = [x].
Proof.
  unfold unique_external_ids.
  induction l as [|y l IH]; intros Hnd Hx He; [by apply elem_of_nil in Hx|].
  rewrite filter_cons. cbn [omap list_omap] in Hnd.
  apply elem_of_cons in Hx as [->|Hx].
  - rewrite He in Hnd. apply NoDup_cons in Hnd as [Hnot _].
    rewrite decide_True by done. f_equal.
    by apply filter_external_id_nil.
  - destruct (Invoice.external_id y) as [ey|] eqn:Hy.
    + apply NoDup_cons in Hnd as [Hnot Hnd].
      rewrite decide_False; [by apply IH|].
      intros [= ->]. apply Hnot. apply list_elem_of_omap. by exists x.
    + rewrite decide_False by done. by apply IH.
Qed.

(** The invoices a session holds: the persistent ones, then the added
    ones, as a flush would store them. *)
Definition session_invoices (w : World) : list Invoice.t :=
  invoices (rows (session w)) ++ invoices (added (session w)).

(** The step for a payload whose opportunity is known: its invoice is
    written in place over the persistent row with its external id, or
    added to the session when no persistent row has that id. *)
Lemma sync_payload_upserts (w : World) (acc : nat * list string)
    (p : InvoicePayload.t) :
  known (opportunities (rows (session w))) p ->
  exists (inv : Invoice.t) (w' : World),
    sync_payload acc p w = (Ok (S (fst acc), snd acc), w') /\
    carries p inv /\
    same_but_invoices w w' /\
    ((exists i old,
        invoices (rows (session w)) !! i = Some old /\
        Invoice.external_id old = Some (InvoicePayload.external_id p) /\
        invoices (rows (session w')) =
          <[i := inv]> (invoices (rows (session w))) /\
        invoices (added (session w')) = invoices (added (session w))) \/
     ((forall x, x ∈ invoices (rows (session w)) ->
         Invoice.external_id x <> Some (InvoicePayload.external_id p)) /\
      invoices (rows (session w')) = invoices (rows (session w)) /\
      invoices (added (session w')) = invoices (added (session w)) ++ [inv])).
Proof.
  intros Hknown.
  destruct (sync_payload_known w acc p Hknown)
    as (k & o & inv & w' & _ & Hup & Hstep).
  destruct (upsert_from_payload_spec w o
              (InvoicePayload.external_id p) (InvoicePayload.amount p)
              (InvoicePayload.issue_date p) (InvoicePayload.due_date p)
              (resolve_status (InvoicePayload.status p))
              (InvoicePayload.currency p))
    as (inv' & w'' & Hup' & Hext & Ham & Hisd & Hdue & Hst & Hcur & Hsame
        & Hwhere).
  rewrite Hup in Hup'. injection Hup' as <- <-.
  exists inv, w'. split; [done|]. split; [by repeat split|]. split; [done|].
  destruct Hwhere as [(i & old & Hfind & Hrows & Hadd & _)
                     |(Hfind & Hrows & Hadd & _)].
  - left. apply list_find_Some in Hfind as (Hi & Hold & _).
    by exists i, old.
  - right. split; [|done]. intros x Hx.
    apply list_find_None in Hfind. rewrite Forall_forall in Hfind.
    by apply Hfind.
Qed.

(** ** Invoice synchronisation: units of work *)

(** The world in which the loop of a batch starts, and the batch in terms
    of its loop. *)
Definition batch_start (since : option date) (w : World) : World :=
  record_call (CallFetchInvoices (effective_since since w))
    (match since with
     | Some _ => w
     | None => {| session := session w; clock_reads := S (clock_reads w);
                  skyline_calls := skyline_calls w |}
     end).

Lemma synchronise_invoices_unfold (w w1 : World) (since : option date)
    (acc : nat * list string) :
  let feed := fetch_invoices skyline_client (effective_since since w) in
  for_each sync_payload (items feed) (0, []) (batch_start since w) =
    (Ok acc, w1) ->
  synchronise_invoices since w =
    (match failure feed with
     | None => Ok {| processed := fst acc; warnings := snd acc |}
     | Some exc => Raised exc
     end,
     on_added
       (fun d =>
          set_sync_logs
            (sync_logs d ++ [batch_log (failure feed) (fst acc) (snd acc)]) d)
       w1).
Proof.
  intros feed Hloop. unfold synchronise_invoices, bind.
  assert (Hstart :
    (match since with
     | Some d => ret d
     | None => fun w1 =>
         let (r, w2) := datetime_utcnow w1 in
         match r with
         | Ok now => ret (datetime_date (datetime_sub_days now 1)) w2
         | Raised e => (Raised e, w2)
         end
     end) w =
    (Ok (effective_since since w),
     match since with
     | Some _ => w
     | None => {| session := session w; clock_reads := S (clock_reads w);
                  skyline_calls := skyline_calls w |}
     end)).
  { by destruct since. }
  rewrite Hstart. unfold skyline_fetch_invoices. fold feed.
  fold (batch_start since w). rewrite Hloop.
  by destruct (failure feed).
Qed.

(** * Further properties *)

(** ** Sales-date workflow: every path *)

Lemma list_find_insert_same {A} (P : A -> Prop) `{forall x, Decision (P x)}
    (l : list A) (i : nat) (x y : A) :
  list_find P l = Some (i, x) -> P y ->
  list_find P (<[i := y]> l) = Some (i, y).
Proof.
  intros Hfind Hy. apply list_find_Some in Hfind as (Hi & _ & Hbefore).
  apply list_find_Some. split; [|split; [done|]].
  - apply list_lookup_insert_eq. by eapply lookup_lt_Some.
  - intros j z Hj Hlt. rewrite list_lookup_insert_ne in Hj by lia.
    by eapply Hbefore.
Qed.

Lemma update_sales_date_invalid_id (w : World) (arg : string + UUID)
    (new_date : date) (updated_by : string) :
  as_uuid arg = None ->
  update_sales_date arg new_date updated_by w =
    (Raised (ValueError "Invalid opportunity id"), w).
Proof. intros Harg. unfold update_sales_date, bind. by rewrite Harg. Qed.

Lemma update_sales_date_not_found (w : World) (arg : string + UUID)
    (oid : UUID) (new_date : date) (updated_by : string) :
  as_uuid arg = Some oid ->
  list_find (fun o => Opportunity.id o = oid)
    (opportunities (rows (session w))) = None ->
  update_sales_date arg new_date updated_by w =
    (Raised (ValueError
               ("Opportunity " +:+ string_of_uuid oid +:+ " not found")), w).
Proof.
  intros Harg Hfind.
  unfold update_sales_date, bind, OpportunityRepository_get.
  rewrite Harg. cbn. by rewrite Hfind.
Qed.

(** X1. A call that resolves no opportunity (the id is a string that is no
    UUID, or no stored opportunity has the id) raises a [ValueError] with
    the text of its case and leaves the world as it is: nothing is
    assigned, the clock is not read, the remote system is not called and
    no sales-date update is added. *)
Theorem update_sales_date_unresolved (w : World) (arg : string + UUID)
    (new_date : date) (updated_by : string) :
  (as_uuid arg = None ->
   update_sales_date arg new_date updated_by w =
     (Raised (ValueError "Invalid opportunity id"), w)) /\
  (forall oid,
     as_uuid arg = Some oid ->
     (forall o, o ∈ opportunities (rows (session w)) ->
        Opportunity.id o <> oid) ->
     update_sales_date arg new_date updated_by w =
       (Raised (ValueError
                  ("Opportunity " +:+ string_of_uuid oid +:+ " not found")),
        w)).
Proof.
  split; [apply update_sales_date_invalid_id|].
  intros oid Harg Hnone. apply update_sales_date_not_found; [done|].
  apply list_find_None, Forall_forall. intros o Ho. by apply Hnone.
Qed.

(** X2. For an opportunity whose order id is not empty, when the client
    accepts the change, [update_sales_date] has called the client once, for
    that order id and the new date, and adds one sales-date update with
    the previous date, [synced_with_infor = True] and the reference of the
    client's answer; it returns the opportunity with the new date, stored
    at its position. *)
Theorem update_sales_date_accepted (w : World) (arg : string + UUID)
    (oid : UUID) (i : nat) (o : Opportunity.t) (order_id : string)
    (new_date : date) (updated_by : string)
    (response : SaleDateUpdateResponse.t) :
  as_uuid arg = Some oid ->
  list_find (fun o => Opportunity.id o = oid)
    (opportunities (rows (session w))) = Some (i, o) ->
  Opportunity.infor_sales_order_id o = Some order_id ->
  order_id <> EmptyString ->
  update_sale_date skyline_client order_id new_date = Ok response ->
  SaleDateUpdateResponse.success response = true ->
  exists (o' : Opportunity.t) (w' : World),
    update_sales_date arg new_date updated_by w = (Ok o', w') /\
    o' = Opportunity.set_updated_at (utcnow (clock_reads w))
           (Opportunity.set_expected_close_date (Some new_date) o) /\
    opportunities (rows (session w')) =
      <[i := o']> (opportunities (rows (session w))) /\
    skyline_calls w' =
      skyline_calls w ++ [CallUpdateSaleDate order_id new_date] /\
    sales_date_updates (added (session w')) =
      sales_date_updates (added (session w)) ++
      [SalesDateUpdate.mk (Opportunity.id o) (Opportunity.expected_close_date o)
         new_date updated_by true (SaleDateUpdateResponse.reference response)].
Proof.
  intros Harg Hfind Hid Hne Hcall Hok.
  rewrite (update_sales_date_found w arg oid i o new_date updated_by Harg Hfind).
  rewrite Hid. cbn [default from_option id].
  destruct order_id as [|c s]; [done|]. cbn [truthy].
  rewrite Hcall, Hok.
  do 2 eexists. split; [reflexivity|]. by cbn.
Qed.

(** X3. When the client raises instead of answering (a transport
    failure), [update_sales_date] raises the same exception and adds no
    sales-date update; the opportunity in the session already has the new
    date and the new update time: the service does not undo them. *)
Theorem update_sales_date_transport_failure (w : World) (arg : string + UUID)
    (oid : UUID) (i : nat) (o : Opportunity.t) (order_id : string)
    (new_date : date) (updated_by : string) (exc : exn) :
  as_uuid arg = Some oid ->
  list_find (fun o => Opportunity.id o = oid)
    (opportunities (rows (session w))) = Some (i, o) ->
  Opportunity.infor_sales_order_id o = Some order_id ->
  order_id <> EmptyString ->
  update_sale_date skyline_client order_id new_date = Raised exc ->
  exists w' : World,
    update_sales_date arg new_date updated_by w = (Raised exc, w') /\
    sales_date_updates (added (session w')) =
      sales_date_updates (added (session w)) /\
    opportunities (rows (session w')) !! i =
      Some (Opportunity.set_updated_at (utcnow (clock_reads w))
              (Opportunity.set_expected_close_date (Some new_date) o)) /\
    skyline_calls w' =
      skyline_calls w ++ [CallUpdateSaleDate order_id new_date].
Proof.
  intros Harg Hfind Hid Hne Hcall.
  rewrite (update_sales_date_found w arg oid i o new_date updated_by Harg Hfind).
  rewrite Hid. cbn [default from_option id].
  destruct order_id as [|c s]; [done|]. cbn [truthy].
  rewrite Hcall.
  apply list_find_Some in Hfind as (Hi & _ & _).
  eexists. split; [reflexivity|]. cbn. repeat split.
  apply list_lookup_insert_eq. by eapply lookup_lt_Some.
Qed.

Ltac frame_none :=
  exists []; rewrite app_nil_r;
  split; [reflexivity|]; split; [cbn; lia|];
  first [ done | intros ? Hin; by apply elem_of_nil in Hin ].

Ltac frame_one :=
  eexists [_]; split; [reflexivity|]; split; [cbn; lia|];
  first [ done
        | intros ? Hin; apply list_elem_of_singleton in Hin; discriminate ].

(** X4. Whatever [update_sales_date] returns or raises, it leaves the
    invoices, the log entries and the persistent sales-date updates as they
    are, keeps the sales-date updates added before and adds at most one
    (none when it raises), keeps the number, the ids and the order ids of
    the opportunities, and calls the client at most once, never to fetch
    invoices. *)
Theorem update_sales_date_frame (w w' : World) (arg : string + UUID)
    (new_date : date) (updated_by : string) (r : Result Opportunity.t) :
  update_sales_date arg new_date updated_by w = (r, w') ->
  invoices (rows (session w')) = invoices (rows (session w)) /\
  invoices (added (session w')) = invoices (added (session w)) /\
  sync_logs (rows (session w')) = sync_logs (rows (session w)) /\
  sync_logs (added (session w')) = sync_logs (added (session w)) /\
  sales_date_updates (rows (session w')) =
    sales_date_updates (rows (session w)) /\
  (exists new,
     sales_date_updates (added (session w')) =
       sales_date_updates (added (session w)) ++ new /\
     length new <= 1 /\
     (forall e, r = Raised e -> new = [])) /\
  (fun o => (Opportunity.id o, Opportunity.infor_sales_order_id o)) <$>
    opportunities (rows (session w')) =
  (fun o => (Opportunity.id o, Opportunity.infor_sales_order_id o)) <$>
    opportunities (rows (session w)) /\
  (exists calls,
     skyline_calls w' = skyline_calls w ++ calls /\
     length calls <= 1 /\
     forall since, CallFetchInvoices since ∉ calls).
Proof.
  intros Hrun.
  destruct (as_uuid arg) as [oid|] eqn:Harg.
  2:{ rewrite update_sales_date_invalid_id in Hrun by done.
      injection Hrun as <- <-. repeat split; try done; frame_none. }
  destruct (list_find (fun o => Opportunity.id o = oid)
              (opportunities (rows (session w)))) as [[i o]|] eqn:Hfind.
  2:{ rewrite (update_sales_date_not_found w arg oid) in Hrun by done.
      injection Hrun as <- <-. repeat split; try done; frame_none. }
  rewrite (update_sales_date_found w arg oid i o new_date updated_by Harg Hfind)
    in Hrun.
  apply list_find_Some in Hfind as (Hi & _ & _).
  assert (Hopps :
    (fun o => (Opportunity.id o, Opportunity.infor_sales_order_id o)) <$>
      <[i := Opportunity.set_updated_at (utcnow (clock_reads w))
               (Opportunity.set_expected_close_date (Some new_date) o)]>
        (opportunities (rows (session w))) =
    (fun o => (Opportunity.id o, Opportunity.infor_sales_order_id o)) <$>
      opportunities (rows (session w))).
  { by eapply fmap_insert_same. }
  destruct (truthy (Opportunity.infor_sales_order_id o)).
  - destruct (update_sale_date skyline_client _ new_date) as [resp|e].
    + destruct (SaleDateUpdateResponse.success resp);
        injection Hrun as <- <-; cbn; repeat split; try done;
        first [frame_one | frame_none].
    + injection Hrun as <- <-; cbn; repeat split; try done;
        first [frame_none | frame_one].
  - injection Hrun as <- <-; cbn; repeat split; try done;
      first [frame_one | frame_none].
Qed.

(** ** Sales-date workflow: units of work *)

(** Reading back what a session has written. *)

Lemma read_back_lookup (numeric : float -> float) (assigned : list nat)
    (invs : list Invoice.t) (i : nat) :
  read_back numeric assigned invs !! i =
  (fun inv => if decide (i ∈ assigned) then column_amount numeric inv else inv)
    <$> invs !! i.
Proof. unfold read_back. by rewrite list_lookup_imap. Qed.

Lemma read_back_nil (numeric : float -> float) (invs : list Invoice.t) :
  read_back numeric [] invs = invs.
Proof.
  apply list_eq. intros i. rewrite read_back_lookup.
  destruct (invs !! i); [|done]. cbn.
  rewrite decide_False; [done|]. apply not_elem_of_nil.
Qed.

Lemma read_back_fmap {B} (f : Invoice.t -> B) (numeric : float -> float)
    (assigned : list nat) (invs : list Invoice.t) :
  (forall inv, f (column_amount numeric inv) = f inv) ->
  f <$> read_back numeric assigned invs = f <$> invs.
Proof.
  intros Hf. apply list_eq. intros i.
  rewrite !list_lookup_fmap, read_back_lookup.
  destruct (invs !! i); [|done]. cbn. by destruct (decide _); rewrite ?Hf.
Qed.

(** What a call that returns has done. *)
Lemma update_sales_date_Ok_inv (w w' : World) (arg : string + UUID)
    (new_date : date) (updated_by : string) (o' : Opportunity.t) :
  update_sales_date arg new_date updated_by w = (Ok o', w') ->
  exists (oid : UUID) (i : nat) (o : Opportunity.t) (reference : option string),
    as_uuid arg = Some oid /\
    list_find (fun o => Opportunity.id o = oid)
      (opportunities (rows (session w))) = Some (i, o) /\
    o' = Opportunity.set_updated_at (utcnow (clock_reads w))
           (Opportunity.set_expected_close_date (Some new_date) o) /\
    (truthy (Opportunity.infor_sales_order_id o) = false -> reference = None) /\
    session w' =
      {| rows := set_opportunities
                   (<[i := o']> (opportunities (rows (session w))))
                   (rows (session w));
         added := set_sales_date_updates
                    (sales_date_updates (added (session w)) ++
                     [SalesDateUpdate.mk (Opportunity.id o)
                        (Opportunity.expected_close_date o) new_date updated_by
                        (truthy (Opportunity.infor_sales_order_id o))
                        reference])
                    (added (session w));
         assigned_invoices := assigned_invoices (session w) |}.
Proof.
  intros Hrun.
  destruct (as_uuid arg) as [oid|] eqn:Harg.
  2:{ by rewrite update_sales_date_invalid_id in Hrun. }
  destruct (list_find (fun o => Opportunity.id o = oid)
              (opportunities (rows (session w)))) as [[i o]|] eqn:Hfind.
  2:{ by rewrite (update_sales_date_not_found w arg oid) in Hrun. }
  rewrite (update_sales_date_found w arg oid i o new_date updated_by Harg Hfind)
    in Hrun.
  exists oid, i, o.
  destruct (truthy (Opportunity.infor_sales_order_id o)).
  - destruct (update_sale_date skyline_client _ new_date) as [resp|e]; [|done].
    destruct (SaleDateUpdateResponse.success resp); [|done].
    injection Hrun as <- <-.
    by exists (SaleDateUpdateResponse.reference resp).
  - injection Hrun as <- <-. by exists None.
Qed.

(** What a committed call has stored. *)
Lemma committed_update_sales_date_inv (a a' : App) (arg : string + UUID)
    (new_date : date) (updated_by : string) (o' : Opportunity.t) :
  session_scope (update_sales_date arg new_date updated_by) a = (Ok o', a') ->
  exists (oid : UUID) (i : nat) (o : Opportunity.t) (reference : option string),
    as_uuid arg = Some oid /\
    list_find (fun o => Opportunity.id o = oid)
      (opportunities (database a)) = Some (i, o) /\
    o' = Opportunity.set_updated_at (utcnow (app_clock_reads a))
           (Opportunity.set_expected_close_date (Some new_date) o) /\
    (truthy (Opportunity.infor_sales_order_id o) = false -> reference = None) /\
    database a' =
      {| opportunities := <[i := o']> (opportunities (database a));
         invoices := invoices (database a);
         sales_date_updates :=
           sales_date_updates (database a) ++
           [SalesDateUpdate.mk (Opportunity.id o)
              (Opportunity.expected_close_date o) new_date updated_by
              (truthy (Opportunity.infor_sales_order_id o)) reference];
         sync_logs := sync_logs (database a) |}.
Proof.
  unfold session_scope.
  destruct (update_sales_date arg new_date updated_by _) as [[o1|e] w1]
    eqn:Hrun; [|done].
  apply update_sales_date_Ok_inv in Hrun
    as (oid & i & o & reference & Harg & Hfind & -> & Href & Hsession).
  cbn [session rows opportunities SessionLocal clock_reads] in *.
  unfold commit, flush. rewrite Hsession. cbn.
  destruct (decide _); [|done].
  intros [= <- <-]. exists oid, i, o, reference.
  repeat split; try done. cbn. unfold set_invoices. cbn.
  by rewrite !app_nil_r, read_back_nil.
Qed.

(** X5. A sales-date update in a unit of work is all or nothing. When the
    unit raises (unknown id, rejection, transport failure, failed commit),
    the committed tables are what they were: the new date assigned to the
    opportunity in the session is gone. When it returns, the tables differ
    from the old ones in the opportunity, which has the new date, and in
    one more sales-date update at the end, which holds the previous date
    and is marked as synced exactly when the opportunity has an order id
    that is not empty. *)
Theorem update_sales_date_all_or_nothing (a a' : App) (arg : string + UUID)
    (new_date : date) (updated_by : string) (r : Result Opportunity.t) :
  session_scope (update_sales_date arg new_date updated_by) a = (r, a') ->
  match r with
  | Raised _ => database a' = database a
  | Ok o' =>
      exists (i : nat) (o : Opportunity.t) (entry : SalesDateUpdate.t),
        opportunities (database a) !! i = Some o /\
        as_uuid arg = Some (Opportunity.id o) /\
        Opportunity.expected_close_date o' = Some new_date /\
        opportunities (database a') =
          <[i := o']> (opportunities (database a)) /\
        sales_date_updates (database a') =
          sales_date_updates (database a) ++ [entry] /\
        SalesDateUpdate.opportunity entry = Opportunity.id o /\
        SalesDateUpdate.previous_date entry =
          Opportunity.expected_close_date o /\
        SalesDateUpdate.new_date entry = new_date /\
        SalesDateUpdate.synced_with_infor entry =
          truthy (Opportunity.infor_sales_order_id o) /\
        invoices (database a') = invoices (database a) /\
        sync_logs (database a') = sync_logs (database a)
  end.
Proof.
  intros Hrun. destruct r as [o'|e].
  - apply committed_update_sales_date_inv in Hrun
      as (oid & i & o & reference & Harg & Hfind & -> & _ & ->).
    apply list_find_Some in Hfind as (Hi & <- & _).
    exists i, o. eexists. cbn. by repeat split.
  - unfold session_scope in Hrun.
    destruct (update_sales_date arg new_date updated_by _) as [[o1|e1] w1].
    + destruct (commit numeric_12_2 (session w1)); by simplify_eq.
    + by simplify_eq.
Qed.

(** X6. Two sales-date updates of the same opportunity, committed one
    after the other, leave a history that chains: the previous date of the
    second record is the new date of the first, and after them the
    opportunity has the second date. *)
Theorem update_sales_date_history_chains (a a1 a2 : App)
    (arg : string + UUID) (d1 d2 : date) (by1 by2 : string)
    (o1 o2 : Opportunity.t) :
  session_scope (update_sales_date arg d1 by1) a = (Ok o1, a1) ->
  session_scope (update_sales_date arg d2 by2) a1 = (Ok o2, a2) ->
  exists (e1 e2 : SalesDateUpdate.t) (i : nat),
    sales_date_updates (database a2) =
      sales_date_updates (database a) ++ [e1; e2] /\
    SalesDateUpdate.new_date e1 = d1 /\
    SalesDateUpdate.previous_date e2 = Some d1 /\
    SalesDateUpdate.new_date e2 = d2 /\
    SalesDateUpdate.opportunity e1 = SalesDateUpdate.opportunity e2 /\
    opportunities (database a2) !! i = Some o2 /\
    Opportunity.expected_close_date o2 = Some d2 /\
    Opportunity.id o2 = SalesDateUpdate.opportunity e2.
Proof.
  intros Hrun1 Hrun2.
  apply committed_update_sales_date_inv in Hrun1
    as (oid & i & o & ref1 & Harg & Hfind & -> & _ & Hdb1).
  apply committed_update_sales_date_inv in Hrun2
    as (oid' & i' & o' & ref2 & Harg' & Hfind' & -> & _ & ->).
  rewrite Harg in Harg'. injection Harg' as <-.
  rewrite Hdb1 in Hfind'. cbn [opportunities] in Hfind'.
  apply list_find_Some in Hfind as Hf. destruct Hf as (Hi & Hid & _).
  rewrite (list_find_insert_same _ _ _ _ _ Hfind) in Hfind' by done.
  injection Hfind' as <- <-.
  rewrite Hdb1. cbn.
  eexists _, _, i. rewrite <- app_assoc. split; [reflexivity|]. cbn.
  repeat split.
  apply list_lookup_insert_eq. rewrite length_insert.
  by eapply lookup_lt_Some.
Qed.

(** ** Invoice synchronisation: every batch *)

Lemma length_filter_split {A} (P : A -> Prop) `{forall x, Decision (P x)}
    (l : list A) :
  length (filter P l) + length (filter (fun x => ~ P x) l) = length l.
Proof.
  induction l as [|x l IH]; [done|]. rewrite !filter_cons.
  destruct (decide (P x)).
  - rewrite decide_False by (intros Hn; by apply Hn). cbn. lia.
  - rewrite decide_True by done. cbn. lia.
Qed.

(** The batch in terms of its loop, with what the loop leaves alone. *)
Lemma synchronise_invoices_loop (w : World) (since : option date) :
  let feed := fetch_invoices skyline_client (effective_since since w) in
  let opps := opportunities (rows (session w)) in
  let n := length (filter (known opps) (items feed)) in
  let errors :=
    unknown_warning <$> filter (fun p => ~ known opps p) (items feed) in
  exists w1 : World,
    for_each sync_payload (items feed) (0, []) (batch_start since w) =
      (Ok (n, errors), w1) /\
    same_but_invoices (batch_start since w) w1 /\
    synchronise_invoices since w =
      (match failure feed with
       | None => Ok {| processed := n; warnings := errors |}
       | Some exc => Raised exc
       end,
       on_added
         (fun d =>
            set_sync_logs
              (sync_logs d ++ [batch_log (failure feed) n errors]) d) w1).
Proof.
  intros feed opps n errors.
  destruct (for_each_sync_payload (items feed) (0, []) (batch_start since w))
    as (w1 & Hloop & Hsame).
  assert (Hopps : opportunities (rows (session (batch_start since w))) = opps)
    by (by destruct since).
  cbn zeta in Hloop. rewrite Hopps in Hloop. cbn [fst snd] in Hloop.
  rewrite Nat.add_0_l, app_nil_l in Hloop. fold n errors in Hloop.
  exists w1. split; [done|]. split; [done|].
  by rewrite (synchronise_invoices_unfold w w1 since (n, errors) Hloop).
Qed.

(** X7. A batch accounts for every payload once and touches nothing but
    invoices and the log: when it returns, the processed count plus the
    number of warnings is the number of payloads; in every case the
    opportunities and the sales-date updates of the session are what they
    were, and the client has been called once, to fetch, and never to
    change a date. *)
Theorem synchronise_invoices_accounts (w w' : World) (since : option date)
    (result : Result SyncResult) :
  synchronise_invoices since w = (result, w') ->
  (forall r, result = Ok r ->
     processed r + length (warnings r) =
     length (items (fetch_invoices skyline_client (effective_since since w)))) /\
  opportunities (rows (session w')) = opportunities (rows (session w)) /\
  opportunities (added (session w')) = opportunities (added (session w)) /\
  sales_date_updates (rows (session w')) =
    sales_date_updates (rows (session w)) /\
  sales_date_updates (added (session w')) =
    sales_date_updates (added (session w)) /\
  skyline_calls w' =
    skyline_calls w ++ [CallFetchInvoices (effective_since since w)].
Proof.
  intros Hrun.
  destruct (synchronise_invoices_loop w since)
    as (w1 & _ & Hsame & Hbatch).
  rewrite Hbatch in Hrun. injection Hrun as <- <-.
  destruct Hsame as (Ho & Hoa & Hs & Hsa & _ & _ & Hc).
  split.
  - intros r Hr. destruct (failure _); [done|]. injection Hr as <-. cbn.
    rewrite length_fmap. apply length_filter_split.
  - cbn. rewrite Ho, Hoa, Hs, Hsa, Hc. by destruct since.
Qed.

(** X8. A batch whose fetch or iteration raises is lost as a whole under
    [session_scope]: the job raises the same exception and the committed
    tables are exactly what they were, the log entry about the failure
    included in what is rolled back. *)
Theorem failed_batch_leaves_no_trace (a : App) (exc : exn) :
  let since :=
    datetime_date (datetime_sub_days (utcnow (app_clock_reads a)) 1) in
  failure (fetch_invoices skyline_client since) = Some exc ->
  exists a' : App,
    _run_invoice_sync a = (Raised exc, a') /\
    database a' = database a /\
    app_skyline_calls a' = app_skyline_calls a ++ [CallFetchInvoices since].
Proof.
  intros since Hfail.
  unfold _run_invoice_sync, session_scope.
  set (w := {| session := SessionLocal (database a);
               clock_reads := app_clock_reads a;
               skyline_calls := app_skyline_calls a |}).
  destruct (synchronise_invoices_loop w None) as (w1 & _ & Hsame & Hbatch).
  change (effective_since None w) with since in Hbatch.
  rewrite Hfail in Hbatch. unfold bind at 1. rewrite Hbatch.
  eexists. split; [reflexivity|]. split; [done|]. cbn.
  destruct Hsame as (_ & _ & _ & _ & _ & _ & Hc). by rewrite Hc.
Qed.

(** ** Invoice synchronisation: stored invoices and new ones *)

(** The owner and the key of an invoice. *)
Definition owner_key (inv : Invoice.t) : UUID * option string :=
  (Invoice.opportunity inv, Invoice.external_id inv).

(** The payload makes a new invoice: its opportunity is known and no
    persistent invoice has its external id. *)
Definition makes_new (opps : list Opportunity.t) (stored : list Invoice.t)
    (p : InvoicePayload.t) : Prop :=
  known opps p /\
  Some (InvoicePayload.external_id p) ∉ (Invoice.external_id <$> stored).

#[local] Instance makes_new_dec opps stored p :
  Decision (makes_new opps stored p).
Proof. unfold makes_new. apply _. Defined.

Lemma external_id_of_owner_key (l1 l2 : list Invoice.t) :
  owner_key <$> l1 = owner_key <$> l2 ->
  Invoice.external_id <$> l1 = Invoice.external_id <$> l2.
Proof.
  intros Heq.
  assert (Hsnd : forall l : list Invoice.t,
            Invoice.external_id <$> l = snd <$> (owner_key <$> l)).
  { intros l. rewrite <- list_fmap_compose. done. }
  by rewrite !Hsnd, Heq.
Qed.

(** The step for a known payload, with the owner of the invoice it
    writes. *)
Lemma sync_payload_upserts_owner (w : World) (acc : nat * list string)
    (p : InvoicePayload.t) :
  known (opportunities (rows (session w))) p ->
  exists (inv : Invoice.t) (w' : World),
    sync_payload acc p w = (Ok (S (fst acc), snd acc), w') /\
    carries p inv /\
    same_but_invoices w w' /\
    ((exists i old,
        list_find
          (fun x => Invoice.external_id x = Some (InvoicePayload.external_id p))
          (invoices (rows (session w))) = Some (i, old) /\
        Invoice.opportunity inv = Invoice.opportunity old /\
        invoices (rows (session w')) =
          <[i := inv]> (invoices (rows (session w))) /\
        invoices (added (session w')) = invoices (added (session w))) \/
     ((Some (InvoicePayload.external_id p) ∉
         Invoice.external_id <$> invoices (rows (session w))) /\
      (exists k o,
         list_find
           (fun o => Opportunity.infor_sales_order_id o =
                     Some (InvoicePayload.opportunity_external_id p))
           (opportunities (rows (session w))) = Some (k, o) /\
         Invoice.opportunity inv = Opportunity.id o) /\
      invoices (rows (session w')) = invoices (rows (session w)) /\
      invoices (added (session w')) = invoices (added (session w)) ++ [inv])).
Proof.
  intros Hknown.
  destruct (sync_payload_known w acc p Hknown)
    as (k & o & inv & w' & Hopp & Hup & Hstep).
  destruct (upsert_from_payload_spec w o
              (InvoicePayload.external_id p) (InvoicePayload.amount p)
              (InvoicePayload.issue_date p) (InvoicePayload.due_date p)
              (resolve_status (InvoicePayload.status p))
              (InvoicePayload.currency p))
    as (inv' & w'' & Hup' & Hext & Ham & Hisd & Hdue & Hst & Hcur & Hsame
        & Hwhere).
  rewrite Hup in Hup'. injection Hup' as <- <-.
  exists inv, w'. split; [done|]. split; [by repeat split|]. split; [done|].
  destruct Hwhere as [(i & old & Hfind & Hrows & Hadd & Hown)
                     |(Hfind & Hrows & Hadd & Hown)].
  - left. by exists i, old.
  - right. split; [|split; [by exists k, o|done]].
    intros Hin. apply list_elem_of_fmap in Hin as (x & Hx & Hxin).
    apply list_find_None in Hfind. rewrite Forall_forall in Hfind.
    by apply (Hfind x).
Qed.

(** The loop, for any payloads: the persistent invoices keep their
    positions, owners and keys, and the external ids of the added invoices
    are, in order, those of the payloads that make a new invoice (one per
    occurrence). *)
Lemma for_each_sync_payload_keys (ps : list InvoicePayload.t)
    (acc : nat * list string) (w : World) :
  let opps := opportunities (rows (session w)) in
  let stored := invoices (rows (session w)) in
  exists (acc' : nat * list string) (w' : World),
    for_each sync_payload ps acc w = (Ok acc', w') /\
    same_but_invoices w w' /\
    owner_key <$> invoices (rows (session w')) = owner_key <$> stored /\
    Invoice.external_id <$> invoices (added (session w')) =
      (Invoice.external_id <$> invoices (added (session w))) ++
      ((fun p => Some (InvoicePayload.external_id p)) <$>
       filter (makes_new opps stored) ps).
Proof.
  revert acc w. induction ps as [|p ps IH]; intros acc w opps stored.
  - exists acc, w. cbn. rewrite app_nil_r.
    repeat split; try done.
  - cbn [for_each]. unfold bind. rewrite filter_cons.
    destruct (decide (known opps p)) as [Hk|Hk].
    + destruct (sync_payload_upserts_owner w acc p Hk)
        as (inv & w1 & Hstep & Hcar & Hsame & Hwhere).
      rewrite Hstep.
      assert (Hopps1 : opportunities (rows (session w1)) = opps)
        by apply Hsame.
      assert (Hkey : Invoice.external_id inv =
                     Some (InvoicePayload.external_id p)) by apply Hcar.
      destruct (IH (S (fst acc), snd acc) w1)
        as (acc' & w' & Hloop & Hsame' & Hrows' & Hadd').
      cbn zeta in Hrows', Hadd'. rewrite Hopps1 in Hadd'.
      exists acc', w'. split; [done|].
      split; [by eapply same_but_invoices_trans|].
      destruct Hwhere as [(i & old & Hfind & Hown & Hrows & Hadd)
                         |(Hnew & _ & Hrows & Hadd)].
      * apply list_find_Some in Hfind as (Hi & Hold & _).
        assert (Hkeys1 : owner_key <$> invoices (rows (session w1)) =
                         owner_key <$> stored).
        { rewrite Hrows. eapply fmap_insert_same; [done|].
          unfold owner_key. congruence. }
        rewrite decide_False.
        2:{ intros [_ Hnot]. apply Hnot. rewrite <- Hold.
            apply list_elem_of_fmap_2. by eapply list_elem_of_lookup_2. }
        split; [congruence|].
        rewrite Hadd', Hadd.
        by rewrite (list_filter_iff (makes_new opps (invoices (rows (session w1))))
                      (makes_new opps stored))
          by (intros q; unfold makes_new;
              by rewrite (external_id_of_owner_key _ _ Hkeys1)).
      * rewrite decide_True by done.
        split; [by rewrite Hrows', Hrows|].
        rewrite Hadd', Hadd, Hrows, fmap_app, fmap_cons, <- app_assoc.
        cbn. by rewrite Hkey.
    + rewrite (sync_payload_unknown w acc p Hk).
      destruct (IH (fst acc, snd acc ++ [unknown_warning p]) w)
        as (acc' & w' & Hloop & Hsame' & Hrows' & Hadd').
      exists acc', w'. rewrite decide_False by (by intros [? _]). done.
Qed.

Lemma omap_of_fmap_Some {A B} (f : A -> option B) (l : list A) (k : list B) :
  f <$> l = Some <$> k -> omap f l = k.
Proof.
  revert k. induction l as [|x l IH]; intros [|y k] Heq; simplify_eq/=; [done|].
  rewrite H. f_equal. by apply IH.
Qed.

(** The invoices of a session satisfy the unique constraint exactly when
    the external ids that are new to the store are pairwise distinct. *)
Lemma unique_external_ids_new (stored rows' added' : list Invoice.t)
    (new_ids : list string) :
  unique_external_ids stored ->
  Invoice.external_id <$> rows' = Invoice.external_id <$> stored ->
  Invoice.external_id <$> added' = Some <$> new_ids ->
  (forall e, e ∈ new_ids -> Some e ∉ Invoice.external_id <$> stored) ->
  unique_external_ids (rows' ++ added') <-> NoDup new_ids.
Proof.
  intros Huniq Hrows Hadded Hnew. unfold unique_external_ids in *.
  rewrite omap_app, (omap_fmap_eq _ _ _ _ Hrows),
    (omap_of_fmap_Some _ _ _ Hadded), NoDup_app.
  split; [by intros (_ & _ & ?)|]. intros Hnd. split; [done|]. split; [|done].
  intros e He Hin. apply (Hnew e Hin).
  apply list_elem_of_omap in He as (x & Hx & Hxe). rewrite <- Hxe.
  by apply list_elem_of_fmap_2.
Qed.

(** X9. One run of the job over a feed that ends normally, on tables that
    satisfy the unique constraint, commits exactly when the external ids
    that make a new invoice (known opportunity, id not stored) are
    pairwise distinct among the payloads. When it commits, the stored
    invoices keep their positions, owners and ids, one invoice per such
    payload follows them in feed order, and one log entry is appended;
    otherwise the run raises the integrity error and the tables are what
    they were. *)
Theorem run_invoice_sync_commits_iff (a : App) (ps : list InvoicePayload.t) :
  let since :=
    datetime_date (datetime_sub_days (utcnow (app_clock_reads a)) 1) in
  let opps := opportunities (database a) in
  let stored := invoices (database a) in
  let new_ids :=
    InvoicePayload.external_id <$> filter (makes_new opps stored) ps in
  fetch_invoices skyline_client since = {| items := ps; failure := None |} ->
  unique_external_ids stored ->
  (NoDup new_ids ->
   exists (r : SyncResult) (a' : App) (log : SyncLog.t),
     _run_invoice_sync a = (Ok r, a') /\
     Invoice.external_id <$> invoices (database a') =
       (Invoice.external_id <$> stored) ++ (Some <$> new_ids) /\
     owner_key <$> take (length stored) (invoices (database a')) =
       owner_key <$> stored /\
     sync_logs (database a') = sync_logs (database a) ++ [log] /\
     SyncLog.success log = bool_decide (warnings r = []) /\
     opportunities (database a') = opps /\
     sales_date_updates (database a') = sales_date_updates (database a)) /\
  (~ NoDup new_ids ->
   exists a' : App,
     _run_invoice_sync a =
       (Raised (IntegrityError "UNIQUE constraint failed: invoices.external_id"),
        a') /\
     database a' = database a).
Proof.
  intros since opps stored new_ids Hfeed Huniq.
  set (w := {| session := SessionLocal (database a);
               clock_reads := app_clock_reads a;
               skyline_calls := app_skyline_calls a |}).
  destruct (synchronise_invoices_loop w None)
    as (w1 & Hloop & Hsame & Hbatch).
  change (effective_since None w) with since in Hloop, Hbatch.
  rewrite Hfeed in Hloop, Hbatch. cbn [items failure] in Hloop, Hbatch.
  destruct (for_each_sync_payload_keys ps (0, []) (batch_start None w))
    as (acc' & w1' & Hloop' & _ & Hrows & Hadded).
  rewrite Hloop in Hloop'. injection Hloop' as <- <-.
  change (opportunities (rows (session (batch_start None w)))) with opps
    in Hadded.
  change (invoices (rows (session (batch_start None w)))) with stored
    in Hrows, Hadded.
  change (invoices (added (session (batch_start None w)))) with (@nil Invoice.t)
    in Hadded.
  assert (Hadded' : Invoice.external_id <$> invoices (added (session w1)) =
                    Some <$> new_ids).
  { rewrite Hadded. unfold new_ids. by rewrite <- list_fmap_compose. }
  clear Hadded. rename Hadded' into Hadded.
  assert (Hiff : unique_external_ids
                   (invoices (rows (session w1)) ++ invoices (added (session w1)))
                 <-> NoDup new_ids).
  { apply (unique_external_ids_new stored); [done| |done|].
    - by apply external_id_of_owner_key.
    - intros e He. apply list_elem_of_fmap in He as (p & -> & Hp).
      apply list_elem_of_filter in Hp as ([_ Hnot] & _). done. }
  destruct Hsame as (Ho & Hoa & Hs & Hsa & Hl & Hla & _).
  unfold _run_invoice_sync, session_scope, bind, datetime_utcnow, ret.
  fold w. rewrite Hbatch. cbn [session clock_reads skyline_calls].
  unfold commit, flush.
  cbn [session on_added rows added set_sync_logs invoices opportunities
       sales_date_updates sync_logs assigned_invoices].
  split.
  - intros Hnd. rewrite decide_True by (by apply Hiff).
    eexists _, _, _. split; [reflexivity|]. cbn.
    rewrite Ho, Hoa, Hs, Hsa, Hl, Hla. cbn. rewrite !app_nil_r.
    repeat split.
    + rewrite read_back_fmap by done.
      rewrite fmap_app, Hadded. f_equal. by apply external_id_of_owner_key.
    + rewrite fmap_take, read_back_fmap, <- fmap_take by done.
      rewrite take_app_length'; [done|].
      apply (f_equal length) in Hrows. by rewrite !length_fmap in Hrows.
  - intros Hnd. rewrite decide_False by (by rewrite Hiff).
    by eexists.
Qed.

(** X10. Whatever the feed holds and however the batch ends, the
    persistent invoices of the session keep their number, their positions,
    their owning opportunities and their external ids. *)
Theorem synchronise_invoices_keeps_stored (w w' : World) (since : option date)
    (result : Result SyncResult) :
  synchronise_invoices since w = (result, w') ->
  owner_key <$> invoices (rows (session w')) =
  owner_key <$> invoices (rows (session w)).
Proof.
  intros Hrun.
  destruct (synchronise_invoices_loop w since) as (w1 & Hloop & _ & Hbatch).
  destruct (for_each_sync_payload_keys
              (items (fetch_invoices skyline_client (effective_since since w)))
              (0, []) (batch_start since w))
    as (acc' & w1' & Hloop' & _ & Hrows & _).
  rewrite Hloop in Hloop'. injection Hloop' as <- <-.
  rewrite Hbatch in Hrun. injection Hrun as <- <-.
  cbn. rewrite Hrows. by destruct since.
Qed.

(** ** Invoice synchronisation: the latest payload of a stored invoice *)

Lemma unique_external_ids_lookup (l : list Invoice.t) (i j : nat)
    (x y : Invoice.t) (e : string) :
  unique_external_ids l -> l !! i = Some x -> l !! j = Some y ->
  Invoice.external_id x = Some e -> Invoice.external_id y = Some e -> i = j.
Proof.
  unfold unique_external_ids. revert i j.
  induction l as [|z l IH]; intros i j Hnd Hi Hj Hx Hy; [done|].
  assert (Htail : forall k v, l !! k = Some v ->
            Invoice.external_id v = Some e -> e ∈ omap Invoice.external_id l).
  { intros k v Hk Hv. apply list_elem_of_omap. exists v.
    split; [by eapply list_elem_of_lookup_2|done]. }
  cbn [omap list_omap] in Hnd.
  destruct i as [|i], j as [|j]; simplify_eq/=; [done| | |].
  - rewrite Hx in Hnd. apply NoDup_cons in Hnd as [Hnot _].
    destruct Hnot. by eapply Htail.
  - rewrite Hy in Hnd. apply NoDup_cons in Hnd as [Hnot _].
    destruct Hnot. by eapply Htail.
  - f_equal. eapply IH; [|done..].
    destruct (Invoice.external_id z); [by apply NoDup_cons in Hnd as [_ ?]|done].
Qed.

Lemma unique_external_ids_find (l : list Invoice.t) (i : nat) (x : Invoice.t)
    (e : string) :
  unique_external_ids l -> l !! i = Some x ->
  Invoice.external_id x = Some e ->
  list_find (fun y => Invoice.external_id y = Some e) l = Some (i, x).
Proof.
  intros Hnd Hi Hx. apply list_find_Some. split; [done|]. split; [done|].
  intros j y Hj Hlt Hy.
  assert (i = j) by (by eapply unique_external_ids_lookup). lia.
Qed.

(** Payloads with other external ids leave a persistent invoice as it
    is. *)
Lemma for_each_sync_payload_other_keys (ps : list InvoicePayload.t)
    (acc : nat * list string) (w : World) (i : nat) (x : Invoice.t)
    (e : string) :
  invoices (rows (session w)) !! i = Some x ->
  Invoice.external_id x = Some e ->
  (forall q, q ∈ ps -> known (opportunities (rows (session w))) q ->
     InvoicePayload.external_id q <> e) ->
  exists (acc' : nat * list string) (w' : World),
    for_each sync_payload ps acc w = (Ok acc', w') /\
    invoices (rows (session w')) !! i = Some x.
Proof.
  revert acc w. induction ps as [|q ps IH]; intros acc w Hi Hx Hother.
  - by exists acc, w.
  - cbn [for_each]. unfold bind.
    destruct (decide (known (opportunities (rows (session w))) q)) as [Hk|Hk].
    + destruct (sync_payload_upserts_owner w acc q Hk)
        as (inv & w1 & Hstep & _ & Hsame & Hwhere).
      rewrite Hstep.
      assert (Hi1 : invoices (rows (session w1)) !! i = Some x).
      { destruct Hwhere as [(j & old & Hfind & _ & Hrows & _)
                           |(_ & _ & Hrows & _)]; rewrite Hrows; [|done].
        apply list_find_Some in Hfind as (Hj & Hold & _).
        rewrite list_lookup_insert_ne; [done|]. intros ->.
        rewrite Hi in Hj. injection Hj as <-.
        apply (Hother q); [by left|done|congruence]. }
      apply IH; [done..|]. intros q' Hq' Hk'. apply Hother; [by right|].
      destruct Hsame as (Ho & _). by rewrite <- Ho.
    + rewrite (sync_payload_unknown w acc q Hk).
      apply IH; [done..|]. intros q' Hq' Hk'. apply Hother; [by right|done].
Qed.

(** X11. In a batch, the last payload that names a stored invoice and a
    known opportunity decides the values of that invoice: after the batch
    (also one that raises after its payloads) the invoice at that position
    holds the amount, the dates, the resolved status and the currency of
    that payload, and still its old owner. *)
Theorem last_payload_decides_stored_invoice (w w' : World)
    (since : option date) (result : Result SyncResult)
    (pre post : list InvoicePayload.t) (p : InvoicePayload.t) (i : nat)
    (old : Invoice.t) :
  synchronise_invoices since w = (result, w') ->
  items (fetch_invoices skyline_client (effective_since since w)) =
    pre ++ p :: post ->
  unique_external_ids (invoices (rows (session w))) ->
  invoices (rows (session w)) !! i = Some old ->
  Invoice.external_id old = Some (InvoicePayload.external_id p) ->
  known (opportunities (rows (session w))) p ->
  (forall q, q ∈ post -> known (opportunities (rows (session w))) q ->
     InvoicePayload.external_id q <> InvoicePayload.external_id p) ->
  exists inv : Invoice.t,
    invoices (rows (session w')) !! i = Some inv /\
    carries p inv /\
    Invoice.opportunity inv = Invoice.opportunity old.
Proof.
  intros Hrun Hitems Huniq Hi Hold Hknown Hlater.
  destruct (synchronise_invoices_loop w since) as (w1 & Hloop & _ & Hbatch).
  rewrite Hbatch in Hrun. injection Hrun as <- <-.
  rewrite Hitems in Hloop.
  set (w0 := batch_start since w) in *.
  assert (Hrows0 : invoices (rows (session w0)) = invoices (rows (session w)))
    by (unfold w0; by destruct since).
  assert (Hopps0 : opportunities (rows (session w0)) =
                   opportunities (rows (session w)))
    by (unfold w0; by destruct since).
  destruct (for_each_sync_payload_keys pre (0, []) w0)
    as (acc1 & wa & Hpre & Hsame1 & Hkeys1 & _).
  rewrite Hrows0 in Hkeys1.
  assert (Hoppsa : opportunities (rows (session wa)) =
                   opportunities (rows (session w))).
  { destruct Hsame1 as (Ho & _). by rewrite Ho. }
  (* the invoice at position [i] after the payloads before [p] *)
  assert (Hia : exists olda, invoices (rows (session wa)) !! i = Some olda /\
                  owner_key olda = owner_key old).
  { pose proof (f_equal (fun l => l !! i) Hkeys1) as Hl. cbn in Hl.
    rewrite !list_lookup_fmap, Hi in Hl.
    destruct (invoices (rows (session wa)) !! i) as [olda|]; [|done].
    exists olda. split; [done|]. cbn in Hl. unfold owner_key in *. congruence. }
  destruct Hia as (olda & Hia & Hkey).
  injection Hkey as Hown Hext.
  assert (Huniqa : unique_external_ids (invoices (rows (session wa)))).
  { unfold unique_external_ids in *.
    by rewrite (omap_fmap_eq _ _ _ _ (external_id_of_owner_key _ _ Hkeys1)). }
  (* the step of [p] *)
  rewrite <- Hoppsa in Hknown.
  destruct (sync_payload_upserts_owner wa acc1 p Hknown)
    as (inv & wb & Hstep & Hcar & Hsame2 & Hwhere).
  assert (Hfinda :
    list_find
      (fun x => Invoice.external_id x = Some (InvoicePayload.external_id p))
      (invoices (rows (session wa))) = Some (i, olda)).
  { apply unique_external_ids_find; [done..|congruence]. }
  destruct Hwhere as [(j & old' & Hfind & Hown' & Hrows & _)
                     |(Hnot & _)].
  2:{ destruct Hnot. rewrite <- Hold, <- Hext.
      apply list_elem_of_fmap_2. by eapply list_elem_of_lookup_2. }
  rewrite Hfinda in Hfind. injection Hfind as <- <-.
  assert (Hib : invoices (rows (session wb)) !! i = Some inv).
  { rewrite Hrows. apply list_lookup_insert_eq. by eapply lookup_lt_Some. }
  (* the payloads after [p] *)
  destruct (for_each_sync_payload_other_keys post (S (fst acc1), snd acc1) wb
              i inv (InvoicePayload.external_id p) Hib)
    as (acc3 & wc & Hpost & Hic).
  { apply Hcar. }
  { intros q Hq Hkq. apply Hlater; [done|].
    destruct Hsame2 as (Ho & _). by rewrite <- Hoppsa, <- Ho. }
  rewrite for_each_app, Hpre in Hloop. cbn [for_each] in Hloop.
  unfold bind in Hloop. rewrite Hstep, Hpost in Hloop.
  injection Hloop as _ <-.
  exists inv. split; [done|]. split; [done|]. congruence.
Qed.

(** ** Upsert: a new invoice *)

(** X12. An upsert for an external id that no invoice of the session has
    adds one invoice, owned by the resolved opportunity and stamped with
    the clock, and leaves the persistent invoices alone; a lookup of the
    id in the same session still finds nothing, and after a flush it
    finds that invoice, stored behind those that were there. *)
Theorem upsert_new_invoice_round_trip (w : World) (opportunity : Opportunity.t)
    (external_id : string) (amount : float) (issue_date : date)
    (due_date : option date) (status : InvoiceStatus) (currency : string) :
  unique_external_ids (session_invoices w) ->
  (forall x, x ∈ session_invoices w ->
     Invoice.external_id x <> Some external_id) ->
  let inv :=
    Invoice.mk (Opportunity.id opportunity) (Some external_id) amount
      issue_date due_date status currency (Some (utcnow (clock_reads w))) in
  exists (w' : World) (s' : Session),
    InvoiceRepository_upsert_from_payload opportunity external_id amount
      issue_date due_date status currency w = (Ok inv, w') /\
    invoices (rows (session w')) = invoices (rows (session w)) /\
    invoices (added (session w')) = invoices (added (session w)) ++ [inv] /\
    select_invoice_by_external_id external_id w' = (Ok None, w') /\
    flush (session w') = Ok s' /\
    list_find (fun x => Invoice.external_id x = Some external_id)
      (invoices (rows s')) = Some (length (session_invoices w), inv).
Proof.
  intros Huniq Habsent inv.
  assert (Hnone : list_find
            (fun x => Invoice.external_id x = Some external_id)
            (invoices (rows (session w))) = None).
  { apply list_find_None, Forall_forall. intros x Hx.
    apply Habsent. apply elem_of_app. by left. }
  assert (Hnone' : list_find
            (fun x => Invoice.external_id x = Some external_id)
            (session_invoices w) = None).
  { apply list_find_None, Forall_forall. intros x Hx. by apply Habsent. }
  assert (Huniq' : unique_external_ids (session_invoices w ++ [inv])).
  { unfold unique_external_ids in *. rewrite omap_app. cbn.
    apply NoDup_app. split; [done|]. split; [|apply NoDup_singleton].
    intros e He. rewrite list_elem_of_singleton. intros ->.
    apply list_elem_of_omap in He as (x & Hx & Hxe). by apply (Habsent x). }
  unfold InvoiceRepository_upsert_from_payload, bind,
    select_invoice_by_external_id.
  rewrite Hnone. cbn. fold inv.
  eexists _, _. split; [reflexivity|]. cbn. split; [done|]. split; [done|].
  rewrite Hnone. split; [done|].
  unfold flush. cbn. unfold session_invoices in Huniq'.
  rewrite <- app_assoc in Huniq'. rewrite decide_True by done.
  split; [reflexivity|]. cbn. rewrite app_assoc.
  fold (session_invoices w).
  apply list_find_Some. split; [|split; [done|]].
  - by rewrite lookup_app_r, Nat.sub_diag.
  - intros j y Hj Hlt. rewrite lookup_app_l in Hj by done.
    apply Habsent. by eapply list_elem_of_lookup_2.
Qed.

(** ** Status resolution: letter case *)

Lemma lower_ascii_idempotent (c : ascii) :
  lower_ascii (lower_ascii c) = lower_ascii c.
Proof. destruct c as [[] [] [] [] [] [] [] []]; reflexivity. Qed.

Lemma lower_idempotent (s : string) : lower (lower s) = lower s.
Proof.
  induction s as [|c s IH]; [done|]. cbn.
  by rewrite lower_ascii_idempotent, IH.
Qed.

Lemma resolve_status_lower (text : string) :
  resolve_status text =
  default issued (InvoiceStatus_of_value (lower text)).
Proof.
  unfold resolve_status.
  destruct (InvoiceStatus_of_value text) as [st|] eqn:Hexact; [|done].
  apply InvoiceStatus_of_value_Some in Hexact as ->.
  by destruct st.
Qed.

(** X13. The status of a payload depends on its status text up to letter
    case only: two texts with the same lowercase form resolve to the same
    status, and a text resolves to a status other than [issued] only if
    its lowercase form is the value of that status. *)
Theorem resolve_status_ignores_case (s t : string) :
  (lower s = lower t -> resolve_status s = resolve_status t) /\
  resolve_status (lower s) = resolve_status s /\
  (resolve_status s <> issued ->
   lower s = InvoiceStatus_value (resolve_status s)).
Proof.
  split; [|split].
  - intros Heq. by rewrite !resolve_status_lower, Heq.
  - by rewrite !resolve_status_lower, lower_idempotent.
  - rewrite resolve_status_lower.
    destruct (InvoiceStatus_of_value (lower s)) as [st|] eqn:Hlow; [|done].
    intros _. by apply InvoiceStatus_of_value_Some in Hlow.
Qed.

(** ** Invoice synchronisation: the invoices a session has written *)

Lemma upsert_from_payload_assigned (w w' : World) (opportunity : Opportunity.t)
    (external_id : string) (amount : float) (issue_date : date)
    (due_date : option date) (status : InvoiceStatus) (currency : string)
    (inv : Invoice.t) :
  InvoiceRepository_upsert_from_payload opportunity external_id amount
    issue_date due_date status currency w = (Ok inv, w') ->
  assigned_invoices (session w') =
    assigned_invoices (session w) ++
    match list_find (fun x => Invoice.external_id x = Some external_id)
            (invoices (rows (session w))) with
    | Some (i, _) => [i]
    | None => []
    end.
Proof.
  unfold InvoiceRepository_upsert_from_payload, bind,
    select_invoice_by_external_id.
  destruct (list_find _ (invoices (rows (session w)))) as [[i old]|]; cbn;
    intros [= _ <-]; cbn; [done|by rewrite app_nil_r].
Qed.

(** A step of the loop marks the persistent invoice it writes, and no
    other. *)
Lemma sync_payload_assigned (w w' : World) (acc acc' : nat * list string)
    (p : InvoicePayload.t) :
  sync_payload acc p w = (Ok acc', w') ->
  assigned_invoices (session w') =
    assigned_invoices (session w) ++
    (if decide (known (opportunities (rows (session w))) p) then
       match list_find
               (fun x => Invoice.external_id x =
                         Some (InvoicePayload.external_id p))
               (invoices (rows (session w))) with
       | Some (i, _) => [i]
       | None => []
       end
     else []).
Proof.
  intros Hstep.
  destruct (decide (known (opportunities (rows (session w))) p)) as [Hk|Hk].
  - destruct (sync_payload_known w acc p Hk)
      as (k & o & inv & w1 & _ & Hup & Hstep').
    rewrite Hstep' in Hstep. injection Hstep as _ <-.
    by eapply upsert_from_payload_assigned.
  - rewrite (sync_payload_unknown w acc p Hk) in Hstep.
    injection Hstep as _ <-. by rewrite app_nil_r.
Qed.

(** A step of the loop keeps the positions, the owners and the keys of the
    persistent invoices. *)
Lemma sync_payload_keeps_keys (w w' : World) (acc acc' : nat * list string)
    (p : InvoicePayload.t) :
  sync_payload acc p w = (Ok acc', w') ->
  same_but_invoices w w' /\
  owner_key <$> invoices (rows (session w')) =
    owner_key <$> invoices (rows (session w)).
Proof.
  intros Hstep.
  destruct (decide (known (opportunities (rows (session w))) p)) as [Hk|Hk].
  - destruct (sync_payload_upserts_owner w acc p Hk)
      as (inv & w1 & Hstep' & Hcar & Hsame & Hwhere).
    rewrite Hstep' in Hstep. injection Hstep as _ <-.
    split; [done|].
    destruct Hwhere as [(i & old & Hfind & Hown & Hrows & _)
                       |(_ & _ & Hrows & _)]; rewrite Hrows; [|done].
    apply list_find_Some in Hfind as (Hi & Hold & _).
    eapply fmap_insert_same; [done|].
    destruct Hcar as (Hext & _). unfold owner_key. congruence.
  - rewrite (sync_payload_unknown w acc p Hk) in Hstep.
    injection Hstep as _ <-. split; [apply same_but_invoices_refl|done].
Qed.

Lemma lookup_owner_key (l1 l2 : list Invoice.t) (i : nat) (x : Invoice.t) :
  owner_key <$> l1 = owner_key <$> l2 -> l1 !! i = Some x ->
  exists y, l2 !! i = Some y /\ owner_key y = owner_key x.
Proof.
  intros Heq Hi.
  pose proof (f_equal (fun l => l !! i) Heq) as Hl. cbn in Hl.
  rewrite !list_lookup_fmap, Hi in Hl.
  destruct (l2 !! i) as [y|]; [|done].
  exists y. split; [done|]. cbn in Hl. congruence.
Qed.

(** The loop only adds to the marked positions, and a position it marks
    holds an invoice whose external id a payload with a known opportunity
    names. *)
Lemma for_each_sync_payload_assigned (ps : list InvoicePayload.t)
    (acc acc' : nat * list string) (w w' : World) :
  for_each sync_payload ps acc w = (Ok acc', w') ->
  (forall i, i ∈ assigned_invoices (session w) ->
     i ∈ assigned_invoices (session w')) /\
  (forall i, i ∈ assigned_invoices (session w') ->
     i ∈ assigned_invoices (session w) \/
     exists q x,
       q ∈ ps /\ known (opportunities (rows (session w))) q /\
       invoices (rows (session w)) !! i = Some x /\
       Invoice.external_id x = Some (InvoicePayload.external_id q)).
Proof.
  revert acc w. induction ps as [|p ps IH]; intros acc w Hloop.
  - injection Hloop as _ <-. split; [done|]. intros i Hi. by left.
  - cbn [for_each] in Hloop. unfold bind in Hloop.
    destruct (sync_payload acc p w) as [[acc1|e] w1] eqn:Hstep; [|done].
    destruct (IH acc1 w1 Hloop) as [Hmono Hnew].
    pose proof (sync_payload_assigned w w1 acc acc1 p Hstep) as Hassigned.
    destruct (sync_payload_keeps_keys w w1 acc acc1 p Hstep)
      as [(Hopps & _) Hkeys].
    split.
    + intros i Hi. apply Hmono. rewrite Hassigned. apply elem_of_app. by left.
    + intros i Hi. destruct (Hnew i Hi) as [Hi1|(q & x & Hq & Hk & Hx & Hext)].
      * rewrite Hassigned in Hi1. apply elem_of_app in Hi1 as [Hi1|Hi1];
          [by left|].
        destruct (decide (known _ p)) as [Hk|Hk];
          [|by apply elem_of_nil in Hi1].
        destruct (list_find _ (invoices (rows (session w))))
          as [[j old]|] eqn:Hfind; [|by apply elem_of_nil in Hi1].
        apply list_elem_of_singleton in Hi1 as ->.
        apply list_find_Some in Hfind as (Hj & Hold & _).
        right. exists p, old. split; [by left|]. by repeat split.
      * destruct (lookup_owner_key _ _ i x Hkeys Hx) as (y & Hy & Hkey).
        right. exists q, y. split; [by right|]. rewrite <- Hopps.
        split; [done|]. split; [done|].
        unfold owner_key in Hkey. congruence.
Qed.

(** The last payload that names a persistent invoice and a known
    opportunity decides the values the session holds for that invoice,
    and the invoice is marked as written. *)
Lemma for_each_sync_payload_last (pre post : list InvoicePayload.t)
    (p : InvoicePayload.t) (acc : nat * list string) (w : World) (i : nat)
    (old : Invoice.t) :
  unique_external_ids (invoices (rows (session w))) ->
  invoices (rows (session w)) !! i = Some old ->
  Invoice.external_id old = Some (InvoicePayload.external_id p) ->
  known (opportunities (rows (session w))) p ->
  (forall q, q ∈ post -> known (opportunities (rows (session w))) q ->
     InvoicePayload.external_id q <> InvoicePayload.external_id p) ->
  exists (acc' : nat * list string) (w' : World) (inv : Invoice.t),
    for_each sync_payload (pre ++ p :: post) acc w = (Ok acc', w') /\
    invoices (rows (session w')) !! i = Some inv /\
    carries p inv /\
    Invoice.opportunity inv = Invoice.opportunity old /\
    i ∈ assigned_invoices (session w').
Proof.
  intros Huniq Hi Hold Hknown Hlater.
  destruct (for_each_sync_payload_keys pre acc w)
    as (acc1 & wa & Hpre & Hsame1 & Hkeys1 & _).
  assert (Hoppsa : opportunities (rows (session wa)) =
                   opportunities (rows (session w))) by apply Hsame1.
  destruct (lookup_owner_key _ _ i old (eq_sym Hkeys1) Hi)
    as (olda & Hia & Hkey).
  injection Hkey as Hown Hext.
  assert (Huniqa : unique_external_ids (invoices (rows (session wa)))).
  { unfold unique_external_ids in *.
    by rewrite (omap_fmap_eq _ _ _ _ (external_id_of_owner_key _ _ Hkeys1)). }
  rewrite <- Hoppsa in Hknown.
  destruct (sync_payload_upserts_owner wa acc1 p Hknown)
    as (inv & wb & Hstep & Hcar & Hsame2 & Hwhere).
  assert (Hfinda :
    list_find
      (fun x => Invoice.external_id x = Some (InvoicePayload.external_id p))
      (invoices (rows (session wa))) = Some (i, olda)).
  { apply unique_external_ids_find; [done..|congruence]. }
  pose proof (sync_payload_assigned wa wb acc1 _ p Hstep) as Hassigned.
  rewrite decide_True, Hfinda in Hassigned by done.
  destruct Hwhere as [(j & old' & Hfind & Hown' & Hrows & _)
                     |(Hnot & _)].
  2:{ destruct Hnot. rewrite <- Hold, <- Hext.
      apply list_elem_of_fmap_2. by eapply list_elem_of_lookup_2. }
  rewrite Hfinda in Hfind. injection Hfind as <- <-.
  assert (Hib : invoices (rows (session wb)) !! i = Some inv).
  { rewrite Hrows. apply list_lookup_insert_eq. by eapply lookup_lt_Some. }
  destruct (for_each_sync_payload_other_keys post (S (fst acc1), snd acc1) wb
              i inv (InvoicePayload.external_id p) Hib)
    as (acc3 & wc & Hpost & Hic).
  { apply Hcar. }
  { intros q Hq Hkq. apply Hlater; [done|].
    destruct Hsame2 as (Ho & _). by rewrite <- Hoppsa, <- Ho. }
  exists acc3, wc, inv.
  rewrite for_each_app, Hpre. cbn [for_each]. unfold bind. rewrite Hstep.
  split; [done|]. split; [done|]. split; [done|]. split; [congruence|].
  apply (for_each_sync_payload_assigned post _ _ wb wc Hpost).
  rewrite Hassigned. apply elem_of_app. right. by left.
Qed.

(** ** Invoice synchronisation: a committed run *)

(** One run of the job that commits, with the committed invoices as the
    next session reads them: a stored invoice that payloads with a known
    opportunity name holds the values of the last of them, its amount
    through the column; a stored invoice that no such payload names is
    what it was. *)
Lemma run_invoice_sync_committed (a : App) (ps : list InvoicePayload.t) :
  let since :=
    datetime_date (datetime_sub_days (utcnow (app_clock_reads a)) 1) in
  let opps := opportunities (database a) in
  let stored := invoices (database a) in
  let new_ids :=
    InvoicePayload.external_id <$> filter (makes_new opps stored) ps in
  fetch_invoices skyline_client since = {| items := ps; failure := None |} ->
  unique_external_ids stored ->
  NoDup new_ids ->
  exists a' : App,
    _run_invoice_sync a =
      (Ok {| processed := length (filter (known opps) ps);
             warnings :=
               unknown_warning <$> filter (fun p => ~ known opps p) ps |},
       a') /\
    opportunities (database a') = opps /\
    Invoice.external_id <$> invoices (database a') =
      (Invoice.external_id <$> stored) ++ (Some <$> new_ids) /\
    (forall pre p post i old,
       ps = pre ++ p :: post ->
       stored !! i = Some old ->
       Invoice.external_id old = Some (InvoicePayload.external_id p) ->
       known opps p ->
       (forall q, q ∈ post -> known opps q ->
          InvoicePayload.external_id q <> InvoicePayload.external_id p) ->
       exists inv,
         invoices (database a') !! i = Some (column_amount numeric_12_2 inv) /\
         carries p inv) /\
    (forall i x e,
       stored !! i = Some x -> Invoice.external_id x = Some e ->
       (forall q, q ∈ ps -> known opps q -> InvoicePayload.external_id q <> e) ->
       invoices (database a') !! i = Some x).
Proof.
  intros since opps stored new_ids Hfeed Huniq Hnd.
  set (w := {| session := SessionLocal (database a);
               clock_reads := app_clock_reads a;
               skyline_calls := app_skyline_calls a |}).
  destruct (synchronise_invoices_loop w None)
    as (w1 & Hloop & Hsame & Hbatch).
  change (effective_since None w) with since in Hloop, Hbatch.
  rewrite Hfeed in Hloop, Hbatch. cbn [items failure] in Hloop, Hbatch.
  change (opportunities (rows (session w))) with opps in Hloop, Hbatch.
  set (w0 := batch_start None w) in *.
  destruct (for_each_sync_payload_keys ps (0, []) w0)
    as (acc' & w1' & Hloop' & _ & Hrows & Hadded).
  rewrite Hloop in Hloop'. injection Hloop' as <- <-.
  change (opportunities (rows (session w0))) with opps in Hadded.
  change (invoices (rows (session w0))) with stored in Hrows, Hadded.
  change (invoices (added (session w0))) with (@nil Invoice.t) in Hadded.
  assert (Hadded' : Invoice.external_id <$> invoices (added (session w1)) =
                    Some <$> new_ids).
  { rewrite Hadded. unfold new_ids. by rewrite <- list_fmap_compose. }
  clear Hadded. rename Hadded' into Hadded.
  assert (Hcommit : unique_external_ids
                      (invoices (rows (session w1)) ++
                       invoices (added (session w1)))).
  { apply (unique_external_ids_new stored _ _ new_ids); [done| |done| |done].
    - by apply external_id_of_owner_key.
    - intros e He. apply list_elem_of_fmap in He as (p & -> & Hp).
      apply list_elem_of_filter in Hp as ([_ Hnot] & _). done. }
  assert (Hlen : length (invoices (rows (session w1))) = length stored).
  { apply (f_equal length) in Hrows. by rewrite !length_fmap in Hrows. }
  destruct Hsame as (Ho & Hoa & Hs & Hsa & Hl & Hla & _).
  unfold _run_invoice_sync, session_scope, bind, datetime_utcnow, ret.
  fold w. rewrite Hbatch. cbn [session clock_reads skyline_calls].
  unfold commit, flush.
  cbn [session on_added rows added set_sync_logs invoices opportunities
       sales_date_updates sync_logs assigned_invoices].
  rewrite decide_True by done.
  eexists. split; [reflexivity|]. cbn.
  split; [|split; [|split]].
  - rewrite Ho, Hoa. cbn. by rewrite app_nil_r.
  - rewrite read_back_fmap by done.
    rewrite fmap_app, Hadded. f_equal. by apply external_id_of_owner_key.
  - intros pre p post i old -> Hi Hold Hk Hlater.
    destruct (for_each_sync_payload_last pre post p (0, []) w0 i old)
      as (acc3 & wc & inv & Hloop3 & Hic & Hcar & _ & Hassigned); [done..|].
    rewrite Hloop in Hloop3. injection Hloop3 as _ <-.
    exists inv. split; [|done].
    rewrite read_back_lookup, lookup_app_l, Hic
      by (by eapply lookup_lt_Some).
    cbn. rewrite decide_True; [done|]. apply elem_of_app. by left.
  - intros i x e Hi Hx Hno.
    destruct (for_each_sync_payload_other_keys ps (0, []) w0 i x e)
      as (acc3 & wc & Hloop3 & Hic); [done..|].
    rewrite Hloop in Hloop3. injection Hloop3 as _ <-.
    rewrite read_back_lookup, lookup_app_l, Hic
      by (by eapply lookup_lt_Some).
    cbn. rewrite decide_False; [done|].
    intros Hin. apply elem_of_app in Hin as [Hin|Hin].
    + apply (for_each_sync_payload_assigned ps _ _ w0 w1 Hloop) in Hin
        as [Hin|(q & y & Hq & Hkq & Hy & Hext)].
      * by apply elem_of_nil in Hin.
      * apply (Hno q Hq Hkq).
        change (invoices (rows (session w0))) with stored in Hy.
        congruence.
    + apply elem_of_seq in Hin as [Hle _].
      apply lookup_lt_Some in Hi. lia.
Qed.

(** ** Invoice synchronisation: two runs over the same payloads *)

Lemma filter_none {A} (P : A -> Prop) `{forall x, Decision (P x)}
    (l : list A) :
  (forall x, x ∈ l -> ~ P x) -> filter P l = [].
Proof.
  induction l as [|x l IH]; intros Hnone; [done|].
  rewrite filter_cons, decide_False by (apply Hnone; by left).
  apply IH. intros y Hy. apply Hnone. by right.
Qed.

Lemma elem_of_omap_external_id (l : list Invoice.t) (e : string) :
  e ∈ omap Invoice.external_id l <-> Some e ∈ Invoice.external_id <$> l.
Proof.
  rewrite list_elem_of_omap, list_elem_of_fmap.
  split; intros (x & H1 & H2); exists x; by split.
Qed.

(** A table whose external ids are those of a table that satisfies the
    unique constraint, followed by distinct ids new to it, satisfies the
    constraint. *)
Lemma unique_external_ids_app_ids (l stored : list Invoice.t)
    (new_ids : list string) :
  unique_external_ids stored ->
  Invoice.external_id <$> l =
    (Invoice.external_id <$> stored) ++ (Some <$> new_ids) ->
  (forall e, e ∈ new_ids -> Some e ∉ Invoice.external_id <$> stored) ->
  NoDup new_ids ->
  unique_external_ids l.
Proof.
  intros Huniq Hids Hnew Hnd.
  rewrite <- (take_drop (length stored) l).
  apply (unique_external_ids_new stored _ _ new_ids); [done| | |done|done].
  - rewrite fmap_take, Hids. apply take_app_length'. by rewrite length_fmap.
  - rewrite fmap_drop, Hids. apply drop_app_length'. by rewrite length_fmap.
Qed.

(** C1, amended. Two runs of the job over the same payloads, each in its
    own unit of work, on tables that satisfy the unique constraint, when
    the payloads that make a new invoice in the first run (known
    opportunity, external id not stored) have pairwise distinct external
    ids: both runs commit; the second run creates no invoice, and the
    stored invoices have pairwise distinct external ids. For every payload
    with a known opportunity that is the last such payload with its
    external id, exactly one stored invoice has that id, and it holds the
    issue date, the due date, the resolved status and the currency of the
    payload, and the amount of the payload as the [Numeric(12, 2)] column
    gives it back. Payloads with an unknown opportunity are skipped by both
    runs, which return the same count and the same warnings, one for each
    of them: for an external id that no payload with a known opportunity
    names, the stored invoices with that id are those stored before the
    first run, unchanged. *)
Theorem synchronise_twice_one_invoice (a : App) (ps : list InvoicePayload.t) :
  let opps := opportunities (database a) in
  let stored := invoices (database a) in
  (forall since,
     fetch_invoices skyline_client since = {| items := ps; failure := None |}) ->
  unique_external_ids stored ->
  NoDup (InvoicePayload.external_id <$> filter (makes_new opps stored) ps) ->
  exists (r1 r2 : SyncResult) (a1 a2 : App),
    _run_invoice_sync a = (Ok r1, a1) /\
    _run_invoice_sync a1 = (Ok r2, a2) /\
    Invoice.external_id <$> invoices (database a2) =
      Invoice.external_id <$> invoices (database a1) /\
    unique_external_ids (invoices (database a2)) /\
    (forall pre p post,
       ps = pre ++ p :: post ->
       known opps p ->
       (forall q, q ∈ post -> known opps q ->
          InvoicePayload.external_id q <> InvoicePayload.external_id p) ->
       exists inv : Invoice.t,
         filter
           (fun x => Invoice.external_id x = Some (InvoicePayload.external_id p))
           (invoices (database a2)) = [inv] /\
         Invoice.amount inv = numeric_12_2 (InvoicePayload.amount p) /\
         Invoice.issue_date inv = InvoicePayload.issue_date p /\
         Invoice.due_date inv = InvoicePayload.due_date p /\
         Invoice.status inv = resolve_status (InvoicePayload.status p) /\
         Invoice.currency inv = InvoicePayload.currency p) /\
    processed r1 = length (filter (known opps) ps) /\
    warnings r1 =
      (fun q => "Unknown opportunity for invoice "
                  +:+ InvoicePayload.external_id q) <$>
      filter (fun q => ~ known opps q) ps /\
    r2 = r1 /\
    (forall e,
       (forall q, q ∈ ps -> known opps q -> InvoicePayload.external_id q <> e) ->
       filter (fun x => Invoice.external_id x = Some e)
         (invoices (database a2)) =
       filter (fun x => Invoice.external_id x = Some e) stored).
Proof.
  intros opps stored Hfeed Huniq Hnd.
  set (new_ids :=
         InvoicePayload.external_id <$> filter (makes_new opps stored) ps) in *.
  assert (Hfresh : forall e, e ∈ new_ids ->
            Some e ∉ Invoice.external_id <$> stored).
  { intros e He. apply list_elem_of_fmap in He as (p & -> & Hp).
    apply list_elem_of_filter in Hp as ([_ Hnot] & _). done. }
  (* the first run *)
  destruct (run_invoice_sync_committed a ps (Hfeed _) Huniq Hnd)
    as (a1 & Hrun1 & Hopps1 & Hids1 & _ & Hkeep1).
  fold opps stored in Hrun1, Hopps1, Hids1, Hkeep1.
  fold new_ids in Hids1.
  assert (Huniq1 : unique_external_ids (invoices (database a1))).
  { by apply (unique_external_ids_app_ids _ stored new_ids). }
  assert (Hstored1 : forall p, p ∈ ps -> known opps p ->
            Some (InvoicePayload.external_id p) ∈
            Invoice.external_id <$> invoices (database a1)).
  { intros p Hp Hk. rewrite Hids1. apply elem_of_app.
    destruct (decide (Some (InvoicePayload.external_id p) ∈
                      Invoice.external_id <$> stored)) as [Hin|Hnin];
      [by left|right].
    apply list_elem_of_fmap_2. unfold new_ids. apply list_elem_of_fmap_2.
    apply list_elem_of_filter. by split. }
  assert (Hnone2 :
    filter (makes_new opps (invoices (database a1))) ps = []).
  { apply filter_none. intros p Hp [Hk Hnot]. apply Hnot.
    by apply Hstored1. }
  (* the second run *)
  destruct (run_invoice_sync_committed a1 ps (Hfeed _) Huniq1)
    as (a2 & Hrun2 & Hopps2 & Hids2 & Hlast2 & Hkeep2).
  { rewrite Hopps1, Hnone2. apply NoDup_nil_2. }
  rewrite Hopps1 in Hrun2, Hopps2, Hids2, Hlast2, Hkeep2.
  rewrite Hnone2 in Hids2. cbn in Hids2. rewrite app_nil_r in Hids2.
  assert (Huniq2 : unique_external_ids (invoices (database a2))).
  { unfold unique_external_ids in *.
    by rewrite (omap_fmap_eq _ _ _ _ Hids2). }
  eexists _, _, a1, a2.
  split; [exact Hrun1|]. split; [exact Hrun2|]. split; [exact Hids2|].
  split; [exact Huniq2|]. split; [|split; [done|split; [done|split; [done|]]]].
  - intros pre p post Hps Hk Hlater.
    assert (Hp : p ∈ ps).
    { rewrite Hps. apply elem_of_app. right. by left. }
    destruct (proj1 (list_elem_of_fmap _ _ _) (Hstored1 p Hp Hk))
      as (old & Hold & Hin).
    apply list_elem_of_lookup in Hin as [i Hi].
    destruct (Hlast2 pre p post i old Hps Hi (eq_sym Hold) Hk Hlater)
      as (inv & Hi2 & Hext & Ham & Hisd & Hdue & Hst & Hcur).
    exists (column_amount numeric_12_2 inv). split.
    + apply unique_external_ids_filter; [done| |done].
      by eapply list_elem_of_lookup_2.
    + cbn. by rewrite Ham.
  - intros e Hno.
    destruct (decide (Some e ∈ Invoice.external_id <$> stored)) as [Hin|Hnin].
    + apply list_elem_of_fmap in Hin as (x & Hx & Hin).
      apply list_elem_of_lookup in Hin as [i Hi].
      pose proof (Hkeep1 i x e Hi (eq_sym Hx) Hno) as Hi1.
      pose proof (Hkeep2 i x e Hi1 (eq_sym Hx) Hno) as Hi2.
      rewrite (unique_external_ids_filter _ x e Huniq2)
        by (done || by eapply list_elem_of_lookup_2).
      symmetry. apply unique_external_ids_filter; [done| |done].
      by eapply list_elem_of_lookup_2.
    + rewrite !filter_external_id_nil; [done| |].
      * by rewrite elem_of_omap_external_id.
      * rewrite elem_of_omap_external_id, Hids2, Hids1.
        intros Hin. apply elem_of_app in Hin as [Hin|Hin]; [done|].
        apply list_elem_of_fmap in Hin as (e' & [= <-] & He).
        apply list_elem_of_fmap in He as (q & -> & Hq).
        apply list_elem_of_filter in Hq as ([Hk _] & Hq).
        by apply (Hno q).
Qed.

End Service.

(** * The Infor Skyline client *)

(** ** Mock mode *)

(** X14. With the client in mock mode a sales-date update is never
    rejected: [update_sales_date] raises nothing but the [ValueError] of an
    id that resolves no opportunity, and for an opportunity with an order
    id that is not empty it records the update as synced, with the
    reference MOCK-, the order id, a dash and the date in ISO format. *)
Theorem mock_update_sales_date_accepted (utcnow : nat -> datetime)
    (uuid_of_string : string -> option UUID) (string_of_uuid : UUID -> string)
    (isoformat : date -> string) (w : World) (arg : string + UUID)
    (new_date : date) (updated_by : string) :
  let run :=
    update_sales_date utcnow uuid_of_string string_of_uuid
      (mock_client isoformat) arg new_date updated_by w in
  (forall e, fst run = Raised e -> exists msg, e = ValueError msg) /\
  (forall oid i o order_id,
     as_uuid uuid_of_string arg = Some oid ->
     list_find (fun o => Opportunity.id o = oid)
       (opportunities (rows (session w))) = Some (i, o) ->
     Opportunity.infor_sales_order_id o = Some order_id ->
     order_id <> EmptyString ->
     exists o',
       fst run = Ok o' /\
       sales_date_updates (added (session (snd run))) =
         sales_date_updates (added (session w)) ++
         [SalesDateUpdate.mk (Opportunity.id o)
            (Opportunity.expected_close_date o) new_date updated_by true
            (Some ("MOCK-" +:+ order_id +:+ "-" +:+ isoformat new_date))]).
Proof.
  intros run. split.
  - intros e He. unfold run in He.
    destruct (as_uuid uuid_of_string arg) as [oid|] eqn:Harg.
    2:{ rewrite update_sales_date_invalid_id in He by done.
        injection He as <-. by eexists. }
    destruct (list_find (fun o => Opportunity.id o = oid)
                (opportunities (rows (session w)))) as [[i o]|] eqn:Hfind.
    2:{ rewrite (update_sales_date_not_found _ _ _ _ w arg oid) in He by done.
        injection He as <-. by eexists. }
    rewrite (update_sales_date_found _ _ _ _ w arg oid i o new_date updated_by
               Harg Hfind) in He.
    by destruct (truthy (Opportunity.infor_sales_order_id o)).
  - intros oid i o order_id Harg Hfind Hid Hne. unfold run.
    rewrite (update_sales_date_found _ _ _ _ w arg oid i o new_date updated_by
               Harg Hfind).
    rewrite Hid. destruct order_id as [|c s]; [done|]. cbn.
    by eexists.
Qed.

(** ** Live mode: [update_sale_date] over HTTP *)

(** [str(n)] for an [int]. *)
Definition str_of_Z (n : Z) : string :=
  match n with
  | Z0 => "0"
  | Zpos p => str_of_nat (Pos.to_nat p)
  | Zneg p => "-" +:+ str_of_nat (Pos.to_nat p)
  end.

(** What the service reads of a [requests] response: the status code, the
    body as text, and the body parsed as a JSON object ([json()] may
    raise), whose values are taken as the optional strings that
    [SaleDateUpdateResponse] declares. *)
Record HttpResponse : Type := {
  status_code : Z;
  text : string;
  json : Result (string -> option string)
}.

(** The configuration of the client and its HTTP session: [patch url body]
    is [session.patch(url, json=body, timeout=30)], which may raise. *)
Record LiveClient : Type := {
  base_url : string;
  tenant : string;
  patch : string -> list (string * string) -> Result HttpResponse
}.

(** [InforSkylineClient.update_sale_date], by [settings.infor_mock_mode]. *)
Definition InforSkylineClient_update_sale_date (infor_mock_mode : bool)
    (isoformat : date -> string) (self : LiveClient)
    (sales_order_id : string) (new_date : date)
    : Result SaleDateUpdateResponse.t :=
  if infor_mock_mode then
    Ok (_mock_sale_date_update isoformat sales_order_id new_date)
  else
    let url := base_url self +:+ "/sales-orders/" +:+ sales_order_id +:+ "/dates" in
    let payload :=
      [("committedDate", isoformat new_date); ("tenant", tenant self)] in
    match patch self url payload with
    | Raised e => Raised e
    | Ok response =>
        if (status_code response / 100 =? 2)%Z then
          match json response with
          | Raised e => Raised e
          | Ok data =>
              Ok (SaleDateUpdateResponse.mk true (data "updateId")
                    (data "message"))
          end
        else
          Ok (SaleDateUpdateResponse.mk false None
                (Some ("Failed with status " +:+ str_of_Z (status_code response)
                         +:+ ": " +:+ text response)))
    end.

(** The client of the service in live mode; [feed] stands for its
    [fetch_invoices]. *)
Definition live_client (isoformat : date -> string) (self : LiveClient)
    (feed : date -> Feed) : InforSkylineClient :=
  {| fetch_invoices := feed;
     update_sale_date := InforSkylineClient_update_sale_date false isoformat self |}.

(** X15. In live mode the answer of the remote system counts as a success
    exactly for the status codes 200 to 299: for those the outcome is a
    success with the update id and the message of the JSON body (or the
    exception of a body that is no JSON), and for every other code it is a
    failure with no reference and the message Failed with status, the code
    and the body text. *)
Theorem live_update_sale_date_by_status (isoformat : date -> string)
    (self : LiveClient) (sales_order_id : string) (new_date : date)
    (response : HttpResponse) :
  patch self
    (base_url self +:+ "/sales-orders/" +:+ sales_order_id +:+ "/dates")
    [("committedDate", isoformat new_date); ("tenant", tenant self)]
    = Ok response ->
  let outcome :=
    InforSkylineClient_update_sale_date false isoformat self sales_order_id
      new_date in
  ((200 <= status_code response < 300)%Z ->
   outcome =
     match json response with
     | Ok data =>
         Ok (SaleDateUpdateResponse.mk true (data "updateId") (data "message"))
     | Raised e => Raised e
     end) /\
  (~ (200 <= status_code response < 300)%Z ->
   outcome =
     Ok (SaleDateUpdateResponse.mk false None
           (Some ("Failed with status " +:+ str_of_Z (status_code response)
                    +:+ ": " +:+ text response)))).
Proof.
  intros Hpatch outcome. unfold outcome, InforSkylineClient_update_sale_date.
  rewrite Hpatch. split.
  - intros Hrange.
    assert (status_code response / 100 = 2)%Z as ->; [|done].
    symmetry. apply Z.div_unique with (r := (status_code response - 200)%Z); lia.
  - intros Hout.
    destruct (Z.eqb_spec (status_code response / 100) 2) as [Heq|Hne]; [|done].
    destruct Hout.
    pose proof (Z.mul_div_le (status_code response) 100 ltac:(lia)).
    pose proof (Z.mul_succ_div_gt (status_code response) 100 ltac:(lia)).
    lia.
Qed.

(** X16. In live mode a status code outside 200 to 299 makes
    [update_sales_date] raise a [RuntimeError] whose message is Failed with
    status, the code and the body text (the default text of the service is
    never used), with no sales-date update added. *)
Theorem live_rejection_message (utcnow : nat -> datetime)
    (uuid_of_string : string -> option UUID) (string_of_uuid : UUID -> string)
    (isoformat : date -> string) (self : LiveClient) (feed : date -> Feed)
    (w : World) (arg : string + UUID) (oid : UUID) (i : nat)
    (o : Opportunity.t) (order_id : string) (new_date : date)
    (updated_by : string) (response : HttpResponse) :
  as_uuid uuid_of_string arg = Some oid ->
  list_find (fun o => Opportunity.id o = oid)
    (opportunities (rows (session w))) = Some (i, o) ->
  Opportunity.infor_sales_order_id o = Some order_id ->
  order_id <> EmptyString ->
  patch self
    (base_url self +:+ "/sales-orders/" +:+ order_id +:+ "/dates")
    [("committedDate", isoformat new_date); ("tenant", tenant self)]
    = Ok response ->
  ~ (200 <= status_code response < 300)%Z ->
  exists w' : World,
    update_sales_date utcnow uuid_of_string string_of_uuid
      (live_client isoformat self feed) arg new_date updated_by w =
      (Raised (RuntimeError
                 ("Failed with status " +:+ str_of_Z (status_code response)
                    +:+ ": " +:+ text response)), w') /\
    sales_date_updates (added (session w')) =
      sales_date_updates (added (session w)).
Proof.
  intros Harg Hfind Hid Hne Hpatch Hout.
  rewrite (update_sales_date_found _ _ _ _ w arg oid i o new_date updated_by
             Harg Hfind).
  rewrite Hid. destruct order_id as [|c s]; [done|].
  cbn [truthy default from_option id live_client update_sale_date].
  unfold InforSkylineClient_update_sale_date. rewrite Hpatch.
  destruct (Z.eqb_spec (status_code response / 100) 2) as [Heq|Hneq].
  - destruct Hout.
    pose proof (Z.mul_div_le (status_code response) 100 ltac:(lia)).
    pose proof (Z.mul_succ_div_gt (status_code response) 100 ltac:(lia)).
    lia.
  - cbn. by eexists.
Qed.

(** * Concrete instances *)

(** An environment: a clock that shows day 20000, an id parser that knows
    two ids, the ids printed back, and date formatting left symbolic. *)
Definition fx_utcnow (k : nat) : datetime := (20000%Z, Z.of_nat k).

Definition fx_uuid_of_string (s : string) : option UUID :=
  if String.eqb s "00000000-0000-0000-0000-000000000001" then Some 1%N
  else if String.eqb s "00000000-0000-0000-0000-000000000002" then Some 2%N
  else None.

Definition fx_string_of_uuid (u : UUID) : string :=
  if N.eqb u 1 then "00000000-0000-0000-0000-000000000001"
  else "00000000-0000-0000-0000-000000000002".

Definition fx_isoformat (d : date) : string := "2024-10-03".

(** The [Numeric(12, 2)] column on the database of the default
    configuration ([config.py]: SQLite). SQLAlchemy's [Numeric] writes a
    float to SQLite as it is and reads it back through ['%.2f' % value]
    into a [Decimal]: the exact value of the float, rounded to two
    decimals, a tie to the even digit. [sqlite_numeric x] is the float of
    that decimal (what [float(invoice.amount)] gives). An infinite value
    reads back as it is; a NaN, which SQLite stores as NULL, is outside
    the model. *)

(** [n / d] rounded to an integer, a tie to the even one ([0 < d]). *)
Definition div_half_even (n d : Z) : Z :=
  let q := (n / d)%Z in
  let r := (n mod d)%Z in
  if (2 * r <? d)%Z then q
  else if (d <? 2 * r)%Z then (q + 1)%Z
  else if Z.even q then q else (q + 1)%Z.

(** [n / (d * 2 ^ e)] as a numerator and a denominator. *)
Definition scaled (n d e : Z) : Z * Z :=
  if (0 <=? e)%Z then (n, d * 2 ^ e)%Z else (n * 2 ^ (- e), d)%Z.

(** The float nearest to [n / d], a tie to the even mantissa, for
    [0 < n] and [0 < d] with [n / d] in the range of the normal floats:
    a mantissa of 53 bits at the binary exponent of [n / d]. *)
Definition float_of_ratio (n d : Z) : float :=
  let k := (Z.log2 n - Z.log2 d)%Z in
  let '(n1, d1) := scaled n d k in
  let exponent := if (n1 <? d1)%Z then (k - 1)%Z else k in
  let '(n2, d2) := scaled n d (exponent - 52) in
  Z.ldexp (of_uint63 (Uint63.of_Z (div_half_even n2 d2))) (exponent - 52).

Definition sqlite_numeric (x : float) : float :=
  match Prim2SF x with
  | S754_finite s m e =>
      if (0 <=? e)%Z then x
      else
        let hundredths := div_half_even (100 * Z.pos m) (2 ^ (- e)) in
        if (hundredths =? 0)%Z then (if s then (-0)%float else 0%float)
        else
          let y := float_of_ratio hundredths 100 in
          if s then (- y)%float else y
  | _ => x
  end.

(** An opportunity linked to the remote order OPP-100 and one with no
    remote order. *)
Definition opp_linked : Opportunity.t :=
  Opportunity.mk 1%N 7%N "Retrofit" prospect 40%float (Some 19000%Z) None
    100%float (Some "ana") (Some "OPP-100") None (18000%Z, 0%Z) (18000%Z, 0%Z).

Definition opp_local : Opportunity.t :=
  Opportunity.mk 2%N 7%N "Service plan" won 90%float (Some 19100%Z) None
    50%float None None None (18000%Z, 0%Z) (18000%Z, 0%Z).

Definition inv_paid : Invoice.t :=
  Invoice.mk 2%N (Some "INV-7") 30%float 18500%Z None paid "USD" None.

Definition inv_overdue : Invoice.t :=
  Invoice.mk 2%N (Some "INV-8") 20%float 18400%Z (Some 18430%Z) overdue "USD"
    None.

Definition fx_db : Database :=
  {| opportunities := [opp_linked; opp_local];
     invoices := [inv_paid; inv_overdue];
     sales_date_updates := [];
     sync_logs := [] |}.

Definition fx_world : World :=
  {| session := SessionLocal fx_db; clock_reads := 0; skyline_calls := [] |}.

Definition fx_app : App :=
  {| database := fx_db; app_clock_reads := 0; app_skyline_calls := [] |}.

(** A client with a fixed feed that rejects every date change. *)
Definition pay_known : InvoicePayload.t :=
  InvoicePayload.mk "INV-7" "OPP-100" 31.5%float 18500%Z (Some 18530%Z)
    "PAID" "EUR".

Definition pay_new : InvoicePayload.t :=
  InvoicePayload.mk "INV-9" "OPP-100" 12%float 18600%Z None "bogus" "USD".

Definition pay_unknown : InvoicePayload.t :=
  InvoicePayload.mk "INV-10" "OPP-999" 5%float 18600%Z None "issued" "USD".

Definition fx_payloads : list InvoicePayload.t :=
  [pay_known; pay_unknown; pay_new].

Definition rejecting_client : InforSkylineClient :=
  {| fetch_invoices _ := {| items := fx_payloads; failure := None |};
     update_sale_date _ _ :=
       Ok (SaleDateUpdateResponse.mk false None (Some "quota exceeded")) |}.

(** The tables of the counterexamples: the linked opportunity alone, with
    no invoice and with a stored invoice INV-1002. *)
Definition cx_app (invs : list Invoice.t) : App :=
  {| database :=
       {| opportunities := [opp_linked]; invoices := invs;
          sales_date_updates := []; sync_logs := [] |};
     app_clock_reads := 0; app_skyline_calls := [] |}.

Definition inv_1002 : Invoice.t :=
  Invoice.mk 1%N (Some "INV-1002") 1%float 18000%Z None draft "USD" None.

(** A feed of one payload whose status text is no status. *)
Definition bogus_client : InforSkylineClient :=
  {| fetch_invoices _ := {| items := [pay_new]; failure := None |};
     update_sale_date _ _ :=
       Ok (SaleDateUpdateResponse.mk true None None) |}.

(** A feed that names the same external id twice. *)
Definition twice_client : InforSkylineClient :=
  {| fetch_invoices _ := {| items := [pay_new; pay_new]; failure := None |};
     update_sale_date _ _ :=
       Ok (SaleDateUpdateResponse.mk true None None) |}.

(** A feed that ends with a second payload for the stored invoice INV-7,
    with an amount of three decimals. *)
Definition pay_known_again : InvoicePayload.t :=
  InvoicePayload.mk "INV-7" "OPP-100" 0.125%float 18501%Z None "overdue"
    "EUR".

Definition repeating_client : InforSkylineClient :=
  {| fetch_invoices _ :=
       {| items := fx_payloads ++ [pay_known_again]; failure := None |};
     update_sale_date _ _ :=
       Ok (SaleDateUpdateResponse.mk true None None) |}.

(** A client that rejects every date change and gives an empty message. *)
Definition unexplained_client : InforSkylineClient :=
  {| fetch_invoices _ := {| items := []; failure := None |};
     update_sale_date _ _ :=
       Ok (SaleDateUpdateResponse.mk false None (Some EmptyString)) |}.

(** A client whose fetch fails before it yields a payload. *)
Definition failing_client : InforSkylineClient :=
  {| fetch_invoices _ :=
       {| items := []; failure := Some (TransportError "connection refused") |};
     update_sale_date _ _ := Raised (TransportError "connection refused") |}.

(** ** The examples of the specification *)

(** Dashboard arithmetic: a prospect of 100 and a won opportunity of 50,
    a paid invoice of 30 and an overdue one of 20. *)
Example dashboard_arithmetic :
  fst (build_sales_dashboard fx_world) =
    Ok (SalesDashboard.mk 100%float 50%float 30%float 1).
Proof. reflexivity. Qed.

(** The amounts of the mock feed have at most two decimals and are read
    back as they are; 0.125 is read back as 0.12 and 0.375 as 0.38. *)
Example numeric_column_arithmetic :
  sqlite_numeric 12500 = 12500%float /\
  sqlite_numeric 9800.5 = 9800.5%float /\
  sqlite_numeric 0.125 = (12 / 100)%float /\
  sqlite_numeric 0.375 = (38 / 100)%float.
Proof. by vm_compute. Qed.

(** Sales-date workflow with no external link. *)
Example sales_date_no_external_link :
  let '(r, w) :=
    update_sales_date fx_utcnow fx_uuid_of_string fx_string_of_uuid
      rejecting_client (inr 2%N) 19200%Z "ana" fx_world in
  (Opportunity.expected_close_date <$> opportunities (rows (session w))) !! 1 =
    Some (Some 19200%Z) /\
  sales_date_updates (added (session w)) =
    [SalesDateUpdate.mk 2%N (Some 19100%Z) 19200%Z "ana" false None] /\
  skyline_calls w = [].
Proof. by vm_compute. Qed.

(** Sales-date workflow, external rejection: the error carries the message
    and nothing is recorded, while the opportunity in the session already
    has the new date. *)
Example sales_date_external_rejection :
  let '(r, w) :=
    update_sales_date fx_utcnow fx_uuid_of_string fx_string_of_uuid
      rejecting_client (inr 1%N) 19200%Z "ana" fx_world in
  r = Raised (RuntimeError "quota exceeded") /\
  sales_date_updates (added (session w)) = [] /\
  (Opportunity.expected_close_date <$> opportunities (rows (session w))) !! 0 =
    Some (Some 19200%Z).
Proof. by vm_compute. Qed.

(** Batch failure logging: the service adds one entry with
    [success = False] to the session and raises; the unit of work around it
    rolls back, so the committed log is as it was. *)
Example batch_failure_logging :
  let '(r, w) := synchronise_invoices fx_utcnow failing_client None fx_world in
  r = Raised (TransportError "connection refused") /\
  sync_logs (added (session w)) =
    [SyncLog.mk "invoice" false (Some "connection refused")].
Proof. by vm_compute. Qed.

Example batch_failure_rolled_back :
  let '(r, a) := _run_invoice_sync fx_utcnow failing_client sqlite_numeric fx_app in
  r = Raised (TransportError "connection refused") /\
  sync_logs (database a) = [].
Proof. by vm_compute. Qed.

(** The same external id twice in one batch: the second lookup does not
    see the invoice added for the first (the session does not flush before
    a SELECT), two invoices are added, the commit breaks the unique
    constraint and the unit of work rolls back. *)
Example same_id_twice_in_one_batch :
  let '(r, w) := synchronise_invoices fx_utcnow twice_client None fx_world in
  r = Ok {| processed := 2; warnings := [] |} /\
  Invoice.external_id <$> invoices (added (session w)) =
    [Some "INV-9"; Some "INV-9"] /\
  let '(r', a) := _run_invoice_sync fx_utcnow twice_client sqlite_numeric fx_app in
  r' = Raised (IntegrityError "UNIQUE constraint failed: invoices.external_id")
  /\ database a = fx_db.
Proof. by vm_compute. Qed.

(** ** Witnesses *)

Lemma fx_db_ids_unique : unique_external_ids (invoices (database fx_app)).
Proof. apply (bool_decide_unpack _). by vm_compute. Defined.

Lemma synchronise_twice_one_invoice_witness :
  exists (r1 r2 : SyncResult) (a1 a2 : App) (inv : Invoice.t),
    _run_invoice_sync fx_utcnow repeating_client sqlite_numeric fx_app =
      (Ok r1, a1) /\
    _run_invoice_sync fx_utcnow repeating_client sqlite_numeric a1 =
      (Ok r2, a2) /\
    filter (fun x => Invoice.external_id x = Some "INV-7")
      (invoices (database a2)) = [inv] /\
    Invoice.status inv = overdue /\
    Invoice.amount inv = (12 / 100)%float.
Proof.
  destruct (synchronise_twice_one_invoice fx_utcnow repeating_client
              sqlite_numeric fx_app (fx_payloads ++ [pay_known_again])
              (fun _ => eq_refl) fx_db_ids_unique)
    as (r1 & r2 & a1 & a2 & H1 & H2 & _ & _ & Hall & _).
  { apply (bool_decide_unpack _). by vm_compute. }
  destruct (Hall fx_payloads pay_known_again [] eq_refl)
    as (inv & Hone & Ham & _ & _ & Hst & _).
  - by exists (0, opp_linked).
  - intros q Hq. by apply elem_of_nil in Hq.
  - exists r1, r2, a1, a2, inv. by rewrite Ham.
Defined.

Lemma update_sales_date_without_order_id_witness :
  as_uuid fx_uuid_of_string (inl "00000000-0000-0000-0000-000000000002") =
    Some 2%N /\
  list_find (fun o => Opportunity.id o = 2%N)
    (opportunities (rows (session fx_world))) = Some (1, opp_local) /\
  Opportunity.infor_sales_order_id opp_local = None /\
  exists (o' : Opportunity.t) (w' : World),
    update_sales_date fx_utcnow fx_uuid_of_string fx_string_of_uuid
      rejecting_client (inl "00000000-0000-0000-0000-000000000002")
      19200%Z "ana" fx_world = (Ok o', w') /\
    Opportunity.expected_close_date o' = Some 19200%Z /\
    skyline_calls w' = [] /\
    sales_date_updates (added (session w')) =
      [SalesDateUpdate.mk 2%N (Some 19100%Z) 19200%Z "ana" false None].
Proof.
  split; [reflexivity|]. split; [reflexivity|]. split; [reflexivity|].
  destruct (update_sales_date_without_order_id fx_utcnow fx_uuid_of_string
              fx_string_of_uuid rejecting_client fx_world
              (inl "00000000-0000-0000-0000-000000000002") 2%N 1 opp_local
              19200%Z "ana" eq_refl eq_refl eq_refl)
    as (o' & w' & Hrun & _ & Hdate & _ & _ & Hcalls & Hadded & _).
  exists o', w'. by repeat split.
Defined.

Lemma update_sales_date_same_date_witness :
  Opportunity.expected_close_date opp_local = Some 19100%Z /\
  exists (o' : Opportunity.t) (w' : World) (entry : SalesDateUpdate.t),
    update_sales_date fx_utcnow fx_uuid_of_string fx_string_of_uuid
      rejecting_client (inr 2%N) 19100%Z "ana" fx_world = (Ok o', w') /\
    sales_date_updates (added (session w')) = [entry] /\
    SalesDateUpdate.previous_date entry = Some 19100%Z /\
    SalesDateUpdate.new_date entry = 19100%Z.
Proof.
  split; [reflexivity|].
  destruct (update_sales_date fx_utcnow fx_uuid_of_string fx_string_of_uuid
              rejecting_client (inr 2%N) 19100%Z "ana" fx_world)
    as [[o'|e] w'] eqn:Hrun; [|by vm_compute in Hrun].
  destruct (update_sales_date_same_date fx_utcnow fx_uuid_of_string
              fx_string_of_uuid rejecting_client fx_world w' (inr 2%N) 2%N 1
              opp_local o' 19100%Z "ana" eq_refl eq_refl eq_refl Hrun)
    as (entry & Hadded & _ & Hprev & Hnew & _).
  exists o', w', entry. by repeat split.
Defined.

Lemma update_sales_date_rejected_witness :
  Opportunity.infor_sales_order_id opp_linked = Some "OPP-100" /\
  update_sale_date rejecting_client "OPP-100" 19200%Z =
    Ok (SaleDateUpdateResponse.mk false None (Some "quota exceeded")) /\
  exists w' : World,
    update_sales_date fx_utcnow fx_uuid_of_string fx_string_of_uuid
      rejecting_client (inr 1%N) 19200%Z "ana" fx_world =
      (Raised (RuntimeError "quota exceeded"), w') /\
    sales_date_updates (added (session w')) = [] /\
    sales_date_updates (rows (session w')) = [].
Proof.
  split; [reflexivity|]. split; [reflexivity|].
  destruct (update_sales_date_rejected fx_utcnow fx_uuid_of_string
              fx_string_of_uuid rejecting_client fx_world (inr 1%N) 1%N 0
              opp_linked "OPP-100" 19200%Z "ana"
              (SaleDateUpdateResponse.mk false None (Some "quota exceeded"))
              eq_refl eq_refl eq_refl eq_refl eq_refl) as [Hreject _].
  destruct Hreject as (text & w' & Hrun & Hmsg & _ & Hadded & Hrows & _);
    [done|].
  rewrite (Hmsg "quota exceeded" eq_refl) in Hrun by done.
  exists w'. by repeat split.
Defined.

Lemma upsert_existing_keeps_owner_witness :
  list_find (fun x => Invoice.external_id x = Some "INV-7")
    (invoices (rows (session fx_world))) = Some (0, inv_paid) /\
  Opportunity.id opp_linked <> Invoice.opportunity inv_paid /\
  exists (invoice' : Invoice.t) (w' : World),
    InvoiceRepository_upsert_from_payload fx_utcnow opp_linked "INV-7"
      31.5%float 18500%Z (Some 18530%Z) paid "EUR" fx_world
      = (Ok invoice', w') /\
    Invoice.opportunity invoice' = 2%N /\
    invoices (rows (session w')) = [invoice'; inv_overdue].
Proof.
  split; [reflexivity|]. split; [done|].
  destruct (upsert_existing_keeps_owner fx_utcnow fx_world opp_linked "INV-7"
              31.5%float 18500%Z (Some 18530%Z) paid "EUR" 0 inv_paid eq_refl)
    as (invoice' & w' & Hrun & -> & Hrows & _).
  eexists _, w'. split; [exact Hrun|]. by split.
Defined.

Lemma pay_unknown_matches_nothing :
  forall o, o ∈ opportunities (rows (session fx_world)) ->
    Opportunity.infor_sales_order_id o <>
    Some (InvoicePayload.opportunity_external_id pay_unknown).
Proof.
  intros o Ho.
  apply elem_of_cons in Ho as [->|Ho]; [done|].
  apply elem_of_cons in Ho as [->|Ho]; [done|].
  by apply elem_of_nil in Ho.
Defined.

Lemma unknown_opportunity_skipped_witness :
  exists w' : World,
    synchronise_invoices fx_utcnow rejecting_client None fx_world =
      (Ok {| processed := 2;
             warnings := ["Unknown opportunity for invoice INV-10"] |}, w').
Proof.
  destruct (unknown_opportunity_skipped fx_utcnow rejecting_client fx_world
              None (0, []) [pay_known] [pay_new] pay_unknown
              pay_unknown_matches_nothing)
    as (_ & _ & Hbatch).
  destruct (Hbatch eq_refl eq_refl) as (w' & Hrun).
  exists w'. exact Hrun.
Defined.

Lemma unparseable_status_not_warned_witness :
  InvoiceStatus_of_value (InvoicePayload.status pay_new) = None /\
  InvoiceStatus_of_value (lower (InvoicePayload.status pay_new)) = None /\
  exists (inv : Invoice.t) (w' : World),
    sync_payload fx_utcnow (0, []) pay_new fx_world = (Ok (1, []), w') /\
    Invoice.status inv = issued /\
    inv ∈ invoices (added (session w')).
Proof.
  split; [reflexivity|]. split; [reflexivity|].
  destruct (unparseable_status_not_warned fx_utcnow rejecting_client fx_world
              None (0, []) pay_new)
    as ((inv & w' & Hstep & Hin & Hext & Hst & _) & _).
  - by intros [].
  - by intros [].
  - by exists (0, opp_linked).
  - exists inv, w'. split; [exact Hstep|]. split; [exact Hst|].
    destruct Hin as [Hin|Hin]; [|done].
    exfalso. vm_compute in Hstep. injection Hstep as <-.
    apply elem_of_cons in Hin as [->|Hin]; [done|].
    apply elem_of_cons in Hin as [->|Hin]; [done|].
    by apply elem_of_nil in Hin.
Defined.

(** ** Counterexamples *)

(** C1 as stated fails in three ways.

    On the mock feed when only the order OPP-100 is known: the payload
    INV-1002 names the unknown order OPP-101 and is skipped by both runs.
    With no invoice stored before, no invoice has its external id after
    the two runs; with an invoice INV-1002 stored before, that invoice
    keeps its own values, which are not the payload's.

    On a feed that names twice an external id that is not stored, for a
    known order: the lookup for the second payload does not see the
    invoice added for the first, each run breaks the unique constraint at
    its commit and is rolled back, and no invoice has that id after the
    two runs.

    On a feed whose last payload for the stored invoice INV-7 has the
    amount 0.125: the one invoice with that id after the two runs has the
    amount 0.12, which is not the amount of the payload. *)
Lemma payloads_not_reconciled :
  (let client := mock_client fx_isoformat in
   let run := _run_invoice_sync fx_utcnow client sqlite_numeric in
   let p := InvoicePayload.mk "INV-1002" "OPP-101" 9800.5%float 19999%Z
              (Some 19999%Z) "paid" "USD" in
   p ∈ items (fetch_invoices client 19999%Z) /\
   (let a2 := snd (run (snd (run (cx_app [])))) in
    fst (run (snd (run (cx_app [])))) =
      Ok {| processed := 1;
            warnings := ["Unknown opportunity for invoice INV-1002"] |} /\
    filter (fun x => Invoice.external_id x = Some "INV-1002")
      (invoices (database a2)) = []) /\
   (let a2 := snd (run (snd (run (cx_app [inv_1002])))) in
    filter (fun x => Invoice.external_id x = Some "INV-1002")
      (invoices (database a2)) = [inv_1002] /\
    PrimFloat.eqb (Invoice.amount inv_1002) (InvoicePayload.amount p) = false /\
    Invoice.status inv_1002 <> resolve_status (InvoicePayload.status p) /\
    Invoice.issue_date inv_1002 <> InvoicePayload.issue_date p)) /\
  (let run := _run_invoice_sync fx_utcnow twice_client sqlite_numeric in
   pay_new ∈ items (fetch_invoices twice_client 19999%Z) /\
   known (opportunities (database fx_app)) pay_new /\
   fst (run fx_app) =
     Raised (IntegrityError "UNIQUE constraint failed: invoices.external_id") /\
   fst (run (snd (run fx_app))) =
     Raised (IntegrityError "UNIQUE constraint failed: invoices.external_id") /\
   filter (fun x => Invoice.external_id x = Some "INV-9")
     (invoices (database (snd (run (snd (run fx_app)))))) = []) /\
  (let run := _run_invoice_sync fx_utcnow repeating_client sqlite_numeric in
   let a2 := snd (run (snd (run fx_app))) in
   last (items (fetch_invoices repeating_client 19999%Z)) =
     Some pay_known_again /\
   InvoicePayload.amount pay_known_again = 0.125%float /\
   known (opportunities (database fx_app)) pay_known_again /\
   Invoice.amount <$>
     filter (fun x => Invoice.external_id x = Some "INV-7")
       (invoices (database a2)) = [(12 / 100)%float] /\
   PrimFloat.eqb (12 / 100) (InvoicePayload.amount pay_known_again) = false).
Proof.
  split; [|split].
  - intros client run p. split.
    + apply elem_of_cons. right. by left.
    + split; [by vm_compute|]. split; [by vm_compute|]. by repeat split.
  - intros run. split; [by left|]. split; [by exists (0, opp_linked)|].
    by vm_compute.
  - intros run a2. split; [reflexivity|]. split; [reflexivity|].
    split; [by exists (0, opp_linked)|]. by vm_compute.
Qed.

(** C2 as stated fails for an answer whose message is the empty string:
    [response.message or ...] takes the empty string for no message, and
    the error raised carries the text "Failed to update Infor Skyline",
    which is not the message of the answer. *)
Lemma empty_rejection_message_not_carried :
  let response := SaleDateUpdateResponse.mk false None (Some EmptyString) in
  Opportunity.infor_sales_order_id opp_linked = Some "OPP-100" /\
  update_sale_date unexplained_client "OPP-100" 19200%Z = Ok response /\
  SaleDateUpdateResponse.success response = false /\
  SaleDateUpdateResponse.message response = Some EmptyString /\
  fst (update_sales_date fx_utcnow fx_uuid_of_string fx_string_of_uuid
         unexplained_client (inr 1%N) 19200%Z "ana" fx_world) =
    Raised (RuntimeError "Failed to update Infor Skyline") /\
  "Failed to update Infor Skyline" <> EmptyString.
Proof. by vm_compute. Qed.

(** C5 as stated fails on a feed of one payload with the status text
    "bogus" for a known order: the text is no status, also when lowered,
    and the batch returns no warning and logs a success with no warning
    in its details. *)
Lemma unparseable_status_gives_no_warning :
  InvoiceStatus_of_value (InvoicePayload.status pay_new) = None /\
  InvoiceStatus_of_value (lower (InvoicePayload.status pay_new)) = None /\
  pay_new ∈ items (fetch_invoices bogus_client 19999%Z) /\
  fst (synchronise_invoices fx_utcnow bogus_client None fx_world) =
    Ok {| processed := 1; warnings := [] |} /\
  sync_logs
    (added (session
       (snd (synchronise_invoices fx_utcnow bogus_client None fx_world)))) =
    [SyncLog.mk "invoice" true (Some "Processed 1 invoices")].
Proof.
  split; [reflexivity|]. split; [reflexivity|]. split; [by left|].
  by vm_compute.
Qed.

(** ** Witnesses of the further properties *)

(** An HTTP session that answers every request with 503. *)
Definition busy_response : HttpResponse :=
  {| status_code := 503; text := "busy";
     json := Raised (ValueError "Expecting value") |}.

Definition busy_live_client : LiveClient :=
  {| base_url := "https://example.skyline.infor.com/api";
     tenant := "tenant";
     patch _ _ := Ok busy_response |}.

Lemma update_sales_date_accepted_witness :
  exists (o' : Opportunity.t) (w' : World),
    update_sales_date fx_utcnow fx_uuid_of_string fx_string_of_uuid
      bogus_client (inr 1%N) 19200%Z "ana" fx_world = (Ok o', w') /\
    sales_date_updates (added (session w')) =
      [SalesDateUpdate.mk 1%N (Some 19000%Z) 19200%Z "ana" true None].
Proof.
  destruct (update_sales_date_accepted fx_utcnow fx_uuid_of_string
              fx_string_of_uuid bogus_client fx_world (inr 1%N) 1%N 0
              opp_linked "OPP-100" 19200%Z "ana"
              (SaleDateUpdateResponse.mk true None None)
              eq_refl eq_refl eq_refl)
    as (o' & w' & Hrun & _ & _ & _ & Hadded); [done..|].
  by exists o', w'.
Defined.

Lemma update_sales_date_transport_failure_witness :
  exists w' : World,
    update_sales_date fx_utcnow fx_uuid_of_string fx_string_of_uuid
      failing_client (inr 1%N) 19200%Z "ana" fx_world =
      (Raised (TransportError "connection refused"), w') /\
    sales_date_updates (added (session w')) = [] /\
    Opportunity.expected_close_date <$>
      opportunities (rows (session w')) !! 0 = Some (Some 19200%Z).
Proof.
  destruct (update_sales_date_transport_failure fx_utcnow fx_uuid_of_string
              fx_string_of_uuid failing_client fx_world (inr 1%N) 1%N 0
              opp_linked "OPP-100" 19200%Z "ana"
              (TransportError "connection refused") eq_refl eq_refl eq_refl)
    as (w' & Hrun & Hadded & Hopp & _); [done..|].
  exists w'. split; [done|]. split; [done|]. by rewrite Hopp.
Defined.

Lemma update_sales_date_frame_witness :
  exists (r : Result Opportunity.t) (w' : World),
    update_sales_date fx_utcnow fx_uuid_of_string fx_string_of_uuid
      rejecting_client (inr 1%N) 19200%Z "ana" fx_world = (r, w') /\
    invoices (rows (session w')) = [inv_paid; inv_overdue] /\
    sales_date_updates (added (session w')) = [].
Proof.
  destruct (update_sales_date fx_utcnow fx_uuid_of_string fx_string_of_uuid
              rejecting_client (inr 1%N) 19200%Z "ana" fx_world)
    as [r w'] eqn:Hrun.
  destruct (update_sales_date_frame fx_utcnow fx_uuid_of_string
              fx_string_of_uuid rejecting_client fx_world w' (inr 1%N)
              19200%Z "ana" r Hrun)
    as (Hinv & _ & _ & _ & _ & (new & Hadded & _ & Hnone) & _).
  exists r, w'. split; [done|]. split; [done|].
  rewrite Hadded. vm_compute in Hrun. injection Hrun as <- _.
  by rewrite (Hnone _ eq_refl).
Defined.

Lemma update_sales_date_all_or_nothing_witness :
  exists a' : App,
    session_scope sqlite_numeric
      (update_sales_date fx_utcnow fx_uuid_of_string fx_string_of_uuid
         rejecting_client (inr 1%N) 19200%Z "ana") fx_app =
      (Raised (RuntimeError "quota exceeded"), a') /\
    database a' = fx_db.
Proof.
  destruct (session_scope sqlite_numeric
              (update_sales_date fx_utcnow fx_uuid_of_string fx_string_of_uuid
                 rejecting_client (inr 1%N) 19200%Z "ana") fx_app)
    as [r a'] eqn:Hrun.
  pose proof (update_sales_date_all_or_nothing fx_utcnow fx_uuid_of_string
                fx_string_of_uuid rejecting_client sqlite_numeric fx_app a' (inr 1%N)
                19200%Z "ana" r Hrun) as Hall.
  assert (Hr : r = Raised (RuntimeError "quota exceeded")).
  { vm_compute in Hrun. by injection Hrun as <- _. }
  subst r. by exists a'.
Defined.

Lemma update_sales_date_history_chains_witness :
  exists (o1 o2 : Opportunity.t) (a1 a2 : App) (e1 e2 : SalesDateUpdate.t),
    session_scope sqlite_numeric
      (update_sales_date fx_utcnow fx_uuid_of_string fx_string_of_uuid
         bogus_client (inr 2%N) 19200%Z "ana") fx_app = (Ok o1, a1) /\
    session_scope sqlite_numeric
      (update_sales_date fx_utcnow fx_uuid_of_string fx_string_of_uuid
         bogus_client (inr 2%N) 19300%Z "bo") a1 = (Ok o2, a2) /\
    sales_date_updates (database a2) = [e1; e2] /\
    SalesDateUpdate.previous_date e2 = Some 19200%Z.
Proof.
  destruct (session_scope sqlite_numeric
              (update_sales_date fx_utcnow fx_uuid_of_string fx_string_of_uuid
                 bogus_client (inr 2%N) 19200%Z "ana") fx_app)
    as [[o1|e] a1] eqn:Hrun1; [|by vm_compute in Hrun1].
  destruct (session_scope sqlite_numeric
              (update_sales_date fx_utcnow fx_uuid_of_string fx_string_of_uuid
                 bogus_client (inr 2%N) 19300%Z "bo") a1)
    as [[o2|e] a2] eqn:Hrun2.
  2:{ vm_compute in Hrun1. injection Hrun1 as _ <-. by vm_compute in Hrun2. }
  destruct (update_sales_date_history_chains fx_utcnow fx_uuid_of_string
              fx_string_of_uuid bogus_client sqlite_numeric fx_app a1 a2 (inr 2%N)
              19200%Z 19300%Z "ana" "bo" o1 o2 Hrun1 Hrun2)
    as (e1 & e2 & i & Hhist & _ & Hprev & _).
  by exists o1, o2, a1, a2, e1, e2.
Defined.

Lemma synchronise_invoices_accounts_witness :
  exists (r : SyncResult) (w' : World),
    synchronise_invoices fx_utcnow rejecting_client None fx_world = (Ok r, w') /\
    processed r + length (warnings r) = 3 /\
    skyline_calls w' = [CallFetchInvoices 19999%Z].
Proof.
  destruct (synchronise_invoices fx_utcnow rejecting_client None fx_world)
    as [[r|e] w'] eqn:Hrun; [|by vm_compute in Hrun].
  destruct (synchronise_invoices_accounts fx_utcnow rejecting_client fx_world
              w' None (Ok r) Hrun)
    as (Hcount & _ & _ & _ & _ & Hcalls).
  exists r, w'. split; [done|]. split; [|done].
  by rewrite (Hcount r eq_refl).
Defined.

Lemma failed_batch_leaves_no_trace_witness :
  exists a' : App,
    _run_invoice_sync fx_utcnow failing_client sqlite_numeric fx_app =
      (Raised (TransportError "connection refused"), a') /\
    database a' = fx_db.
Proof.
  destruct (failed_batch_leaves_no_trace fx_utcnow failing_client
              sqlite_numeric fx_app
              (TransportError "connection refused") eq_refl)
    as (a' & Hrun & Hdb & _).
  by exists a'.
Defined.

Lemma run_invoice_sync_commits_iff_witness :
  (exists (r : SyncResult) (a' : App),
     _run_invoice_sync fx_utcnow rejecting_client sqlite_numeric fx_app = (Ok r, a') /\
     Invoice.external_id <$> invoices (database a') =
       [Some "INV-7"; Some "INV-8"; Some "INV-9"]) /\
  (exists a' : App,
     _run_invoice_sync fx_utcnow twice_client sqlite_numeric fx_app =
       (Raised (IntegrityError "UNIQUE constraint failed: invoices.external_id"),
        a') /\
     database a' = fx_db).
Proof.
  split.
  - destruct (run_invoice_sync_commits_iff fx_utcnow rejecting_client
                sqlite_numeric fx_app
                fx_payloads eq_refl fx_db_ids_unique) as [Hcommit _].
    destruct Hcommit as (r & a' & log & Hrun & Hids & _).
    { apply (bool_decide_unpack _). by vm_compute. }
    exists r, a'. split; [done|]. rewrite Hids. by vm_compute.
  - destruct (run_invoice_sync_commits_iff fx_utcnow twice_client
                sqlite_numeric fx_app
                [pay_new; pay_new] eq_refl fx_db_ids_unique) as [_ Hfail].
    apply Hfail. intros Hnd. vm_compute in Hnd.
    apply NoDup_cons in Hnd as [Hnot _]. apply Hnot. by left.
Defined.

Lemma synchronise_invoices_keeps_stored_witness :
  exists (r : Result SyncResult) (w' : World),
    synchronise_invoices fx_utcnow rejecting_client None fx_world = (r, w') /\
    owner_key <$> invoices (rows (session w')) =
      [(2%N, Some "INV-7"); (2%N, Some "INV-8")].
Proof.
  destruct (synchronise_invoices fx_utcnow rejecting_client None fx_world)
    as [r w'] eqn:Hrun.
  exists r, w'. split; [done|].
  by rewrite (synchronise_invoices_keeps_stored fx_utcnow rejecting_client
                fx_world w' None r Hrun).
Defined.

Lemma last_payload_decides_stored_invoice_witness :
  exists (r : Result SyncResult) (w' : World) (inv : Invoice.t),
    synchronise_invoices fx_utcnow rejecting_client None fx_world = (r, w') /\
    invoices (rows (session w')) !! 0 = Some inv /\
    Invoice.status inv = paid /\
    Invoice.currency inv = "EUR" /\
    Invoice.opportunity inv = 2%N.
Proof.
  destruct (synchronise_invoices fx_utcnow rejecting_client None fx_world)
    as [r w'] eqn:Hrun.
  destruct (last_payload_decides_stored_invoice fx_utcnow rejecting_client
              fx_world w' None r [] [pay_unknown; pay_new] pay_known 0
              inv_paid Hrun eq_refl)
    as (inv & Hi & Hcar & Hown).
  - apply (bool_decide_unpack _). by vm_compute.
  - done.
  - done.
  - by exists (0, opp_linked).
  - intros q Hq _.
    apply elem_of_cons in Hq as [->|Hq]; [done|].
    apply elem_of_cons in Hq as [->|Hq]; [done|].
    by apply elem_of_nil in Hq.
  - exists r, w', inv. split; [done|]. split; [done|].
    destruct Hcar as (_ & _ & _ & _ & Hst & Hcur).
    by repeat split.
Defined.

Lemma upsert_new_invoice_round_trip_witness :
  exists (inv : Invoice.t) (w' : World) (s' : Session),
    InvoiceRepository_upsert_from_payload fx_utcnow opp_linked "INV-9"
      12%float 18600%Z None issued "USD" fx_world = (Ok inv, w') /\
    select_invoice_by_external_id "INV-9" w' = (Ok None, w') /\
    flush (session w') = Ok s' /\
    list_find (fun x => Invoice.external_id x = Some "INV-9")
      (invoices (rows s')) = Some (2, inv).
Proof.
  destruct (upsert_new_invoice_round_trip fx_utcnow fx_world opp_linked
              "INV-9" 12%float 18600%Z None issued "USD")
    as (w' & s' & Hrun & _ & _ & Hselect & Hflush & Hfind).
  - apply (bool_decide_unpack _). by vm_compute.
  - intros x Hx.
    apply elem_of_cons in Hx as [->|Hx]; [done|].
    apply elem_of_cons in Hx as [->|Hx]; [done|].
    by apply elem_of_nil in Hx.
  - eexists _, w', s'. by repeat split.
Defined.

Lemma live_update_sale_date_by_status_witness :
  InforSkylineClient_update_sale_date false fx_isoformat busy_live_client
    "OPP-100" 19200%Z =
    Ok (SaleDateUpdateResponse.mk false None
          (Some "Failed with status 503: busy")).
Proof.
  destruct (live_update_sale_date_by_status fx_isoformat busy_live_client
              "OPP-100" 19200%Z busy_response eq_refl) as [_ Hfail].
  rewrite Hfail; [done|]. cbn. lia.
Defined.

Lemma live_rejection_message_witness :
  exists w' : World,
    update_sales_date fx_utcnow fx_uuid_of_string fx_string_of_uuid
      (live_client fx_isoformat busy_live_client
         (fun _ => {| items := []; failure := None |}))
      (inr 1%N) 19200%Z "ana" fx_world =
      (Raised (RuntimeError "Failed with status 503: busy"), w') /\
    sales_date_updates (added (session w')) = [].
Proof.
  destruct (live_rejection_message fx_utcnow fx_uuid_of_string
              fx_string_of_uuid fx_isoformat busy_live_client
              (fun _ => {| items := []; failure := None |}) fx_world
              (inr 1%N) 1%N 0 opp_linked "OPP-100" 19200%Z "ana" busy_response
              eq_refl eq_refl eq_refl)
    as (w' & Hrun & Hadded); [done|reflexivity|cbn; lia|].
  by exists w'.
Defined.
